(** * Book summarizer: segmentation engine and rate-limited controller

    A shallow embedding of the chunking lambdas (structural and flat
    variants of [smartChunkText], with [fallbackChunking]) and of the
    summarization lambda ([estimateTokens], [robustJsonParse],
    [summarizeChunksWithRateLimit]).

    Texts are [string]s; every character stands for one UTF-16 code unit
    in the Latin-1 range.  Lengths, token counts and times (milliseconds)
    are integers in [Z]; section counters are [nat]. *)

From Stdlib Require Import ZArith List String Ascii Bool Arith Lia.
From Stdlib Require Import DecimalString DecimalNat.
From Stdlib Require Import Floats.SpecFloat.
Import ListNotations.

Local Open Scope string_scope.
Local Open Scope Z_scope.

(** ** The string primitives of the host language *)

Module JS.

(** [s.length] *)
Definition len (s : string) : Z := Z.of_nat (String.length s).

(** White space as [\s] and [String.prototype.trim] see it, restricted
    to code units below 256: TAB, LF, VT, FF, CR, SP and NBSP. *)
Definition is_space (c : ascii) : bool :=
  let n := nat_of_ascii c in
  ((9 <=? n)%nat && (n <=? 13)%nat) || (n =? 32)%nat || (n =? 160)%nat.

(** [\w] without the unicode flag: [A-Za-z0-9_]. *)
Definition is_word_char (c : ascii) : bool :=
  let n := nat_of_ascii c in
  ((48 <=? n)%nat && (n <=? 57)%nat) || ((65 <=? n)%nat && (n <=? 90)%nat)
  || (n =? 95)%nat || ((97 <=? n)%nat && (n <=? 122)%nat).

Fixpoint trimStart (s : string) : string :=
  match s with
  | EmptyString => EmptyString
  | String c r => if is_space c then trimStart r else s
  end.

Fixpoint trimEnd (s : string) : string :=
  match s with
  | EmptyString => EmptyString
  | String c r =>
      match trimEnd r with
      | EmptyString => if is_space c then EmptyString else String c EmptyString
      | r' => String c r'
      end
  end.

(** [s.trim()] *)
Definition trim (s : string) : string := trimEnd (trimStart s).

(** [s.slice(a, b)] for [0 <= a] and [0 <= b]; an end before the start
    gives the empty string. *)
Definition slice (s : string) (a b : nat) : string :=
  String.substring a (b - a) s.

(** [s.slice(a)] *)
Definition slice_from (s : string) (a : nat) : string :=
  String.substring a (String.length s - a) s.

(** [xs.join(' ')] *)
Definition join_sp (xs : list string) : string := String.concat " " xs.

(** A number inside a template literal. *)
Definition show (n : nat) : string := NilEmpty.string_of_uint (Nat.to_uint n).

(** An empty string is falsy. *)
Definition truthy (s : string) : bool :=
  match s with EmptyString => false | _ => true end.

Definition starts_with_space (s : string) : bool :=
  match s with String c _ => is_space c | EmptyString => false end.

(** [s.split(/\s+/)]: the pieces between the maximal runs of white
    space.  A run at either end leaves an empty piece there, and the
    empty string splits into one empty piece. *)
Fixpoint split_ws (s : string) : list string :=
  match s with
  | EmptyString => [EmptyString]
  | String c r =>
      if is_space c then
        if starts_with_space r then split_ws r else EmptyString :: split_ws r
      else
        match split_ws r with
        | p :: ps => String c p :: ps
        | [] => [String c EmptyString]
        end
  end.

Definition is_terminator (c : ascii) : bool :=
  (c =? ".")%char || (c =? "!")%char || (c =? "?")%char.

(** All matches of [/[^.!?]*[.!?]/g] in order: each match is a maximal
    run of non-terminators closed by one terminator.  Text after the
    last terminator matches nothing. *)
Fixpoint match_sentences (s : string) : list string :=
  match s with
  | EmptyString => []
  | String c r =>
      if is_terminator c then String c EmptyString :: match_sentences r
      else
        match match_sentences r with
        | [] => []
        | m :: ms => String c m :: ms
        end
  end.

(** [text.match(/[^.!?]*[.!?]/g) || [text]]: [match] gives [null] when
    nothing matches. *)
Definition sentences_of (text : string) : list string :=
  match match_sentences text with
  | [] => [text]
  | ms => ms
  end.

Definition lower (c : ascii) : ascii :=
  let n := nat_of_ascii c in
  if ((65 <=? n)%nat && (n <=? 90)%nat) then ascii_of_nat (n + 32) else c.

(** Does [s] start with [pat] (given in lower case), ignoring case? *)
Fixpoint prefix_ci (pat s : string) : bool :=
  match pat, s with
  | EmptyString, _ => true
  | String p pr, String c r => (p =? lower c)%char && prefix_ci pr r
  | String _ _, EmptyString => false
  end.

Fixpoint drop (n : nat) (s : string) : string :=
  match n, s with
  | O, _ => s
  | S n', String _ r => drop n' r
  | S _, EmptyString => EmptyString
  end.

(** [\b] in front of a word character: the previous character, if any,
    is not a word character. *)
Definition boundary_before (prev : option ascii) : bool :=
  match prev with None => true | Some p => negb (is_word_char p) end.

(** [\b] behind a word character. *)
Definition boundary_after (rest : string) : bool :=
  match rest with EmptyString => true | String c _ => negb (is_word_char c) end.

(** The match positions of [/\bchapter\b/gi]; [s] is the text from
    position [i] on, [prev] the character before it and [skip] the number
    of characters still covered by the previous match. *)
Fixpoint chapter_scan (prev : option ascii) (skip i : nat) (s : string)
  : list nat :=
  match s with
  | EmptyString => []
  | String c r =>
      match skip with
      | S k => chapter_scan (Some c) k (S i) r
      | O =>
          if boundary_before prev && prefix_ci "chapter" s
             && boundary_after (drop 7 s)
          then i :: chapter_scan (Some c) 6 (S i) r
          else chapter_scan (Some c) 0 (S i) r
      end
  end.

(** [Array.from(text.matchAll(/\bchapter\b/gi))], each match by its
    [index]. *)
Definition matchAll_chapter (text : string) : list nat :=
  chapter_scan None 0 0 text.

(** [s.replace(/```json|```/g, '')]: at each position the longer
    alternative is tried first; a match is deleted and the scan goes on
    behind it. *)
Fixpoint strip_fences_from (skip : nat) (s : string) : string :=
  match s with
  | EmptyString => EmptyString
  | String c r =>
      match skip with
      | S k => strip_fences_from k r
      | O =>
          if String.prefix "```json" s then strip_fences_from 6 r
          else if String.prefix "```" s then strip_fences_from 2 r
          else String c (strip_fences_from 0 r)
      end
  end.

Definition strip_fences (s : string) : string := strip_fences_from 0 s.

(** [s.split(sep)] for a separator of one character: the first piece
    and the pieces behind it (there is always a first piece, the whole
    of [s] when the separator does not occur). *)
Fixpoint split_on (sep : ascii) (s : string) : string * list string :=
  match s with
  | EmptyString => (EmptyString, [])
  | String c r =>
      let (p, ps) := split_on sep r in
      if (c =? sep)%char then (EmptyString, p :: ps) else (String c p, ps)
  end.

End JS.

(** ** Chunks *)

Record Chunk : Type := mkChunk { chunkName : string; chunkContent : string }.

(** ** Sentence grouping

    The loop that the flat [smartChunkText] and [fallbackChunking] share
    word for word; they differ in the name given to a chunk. *)

Module Grouping.

Record state : Type := mkState {
  chunks : list Chunk;
  currentChunk : string;
  sectionNumber : nat;
  sentenceGroup : list string
}.

Definition init : state := mkState [] EmptyString 1 [].

Section Loop.

Variable name_of : nat -> string.
Variable maxChunkSize : Z.

(** One iteration of [for (const sentence of sentences)]. *)
Definition step (st : state) (sentence : string) : state :=
  let group := (sentenceGroup st ++ [sentence])%list in
  if (4 <=? Z.of_nat (List.length group))
     || (maxChunkSize <? JS.len (currentChunk st) + JS.len sentence)
  then
    let groupContent := JS.join_sp group in
    let st1 :=
      if maxChunkSize <? JS.len (currentChunk st) + JS.len groupContent
      then mkState
             (chunks st ++ [mkChunk (name_of (sectionNumber st))
                                    (JS.trim (currentChunk st))])%list
             EmptyString (S (sectionNumber st)) group
      else mkState (chunks st) (currentChunk st) (sectionNumber st) group in
    mkState (chunks st1) (currentChunk st1 ++ groupContent ++ " ")
            (sectionNumber st1) []
  else
    mkState (chunks st) (currentChunk st) (sectionNumber st) group.

(** The flush after the loop. *)
Definition finish (st : state) : list Chunk :=
  if 0 <? JS.len (currentChunk st)
  then (chunks st ++ [mkChunk (name_of (sectionNumber st))
                              (JS.trim (currentChunk st))])%list
  else chunks st.

Definition run (sentences : list string) : list Chunk :=
  finish (fold_left step sentences init).

End Loop.

End Grouping.

(** ** The flat variant (lambda/smart-chunk) *)

Module Flat.

Definition chunkSize : Z := 40000.

Definition section_name (n : nat) : string := "Section " ++ JS.show n.

(** [smartChunkText] with the size cap as a parameter. *)
Definition smartChunkText_sized (size : Z) (text : string) : list Chunk :=
  Grouping.run section_name size (JS.sentences_of text).

Definition smartChunkText (text : string) : list Chunk :=
  smartChunkText_sized chunkSize text.

End Flat.

(** ** The structural variant *)

Module Structural.

Definition chunkSize : Z := 100000.

(** [fallbackChunking(text, baseName, maxChunkSize)] *)
Definition fallbackChunking (text baseName : string) (maxChunkSize : Z)
  : list Chunk :=
  Grouping.run (fun n => baseName ++ "." ++ JS.show n) maxChunkSize
               (JS.sentences_of text).

Record scan_state : Type := mkScan {
  sc_chunks : list Chunk;
  chapterNumber : nat;
  lastIndex : nat
}.

(** The optional push of a trimmed slice. *)
Definition push_if_truthy (cs : list Chunk) (name content : string)
  : list Chunk :=
  if JS.truthy content then (cs ++ [mkChunk name content])%list else cs.

(** One iteration of [for (const [i, match] of matches.entries())];
    [next] is [matches[i + 1]?.index]. *)
Definition chapter_step (text : string) (st : scan_state)
    (index : nat) (next : option nat) : scan_state :=
  let chapterNumber := S (chapterNumber st) in
  let sectionNumber := 1%nat in
  if (lastIndex st <? index)%nat then
    let cs1 :=
      if (0 <? lastIndex st)%nat then
        push_if_truthy (sc_chunks st)
          ("Chapter " ++ JS.show (chapterNumber - 1) ++ "."
             ++ JS.show sectionNumber)
          (JS.trim (JS.slice text (lastIndex st) index))
      else sc_chunks st in
    let nextIndex :=
      match next with Some j => j | None => String.length text end in
    let chapterContent := JS.trim (JS.slice text index nextIndex) in
    mkScan (cs1 ++ [mkChunk ("Chapter " ++ JS.show chapterNumber ++ ".1")
                            chapterContent])%list
           chapterNumber nextIndex
  else mkScan (sc_chunks st) chapterNumber (lastIndex st).

Fixpoint chapter_loop (text : string) (st : scan_state) (ms : list nat)
  : scan_state :=
  match ms with
  | [] => st
  | m :: rest => chapter_loop text (chapter_step text st m (hd_error rest)) rest
  end.

(** The text in front of the first chapter. *)
Definition prefix_chunks (text : string) (first : nat) : list Chunk :=
  if (0 <? first)%nat
  then push_if_truthy [] "Prefix 1.1" (JS.trim (JS.slice text 0 first))
  else [].

(** The text left behind the loop. *)
Definition with_suffix (text : string) (st : scan_state) : list Chunk :=
  if (lastIndex st <? String.length text)%nat
  then push_if_truthy (sc_chunks st)
         ("Suffix " ++ JS.show (chapterNumber st + 1) ++ ".1")
         (JS.trim (JS.slice_from text (lastIndex st)))
  else sc_chunks st.

(** The chunks before the size-bounding pass. *)
Definition structural_chunks (text : string) : list Chunk :=
  let matches := JS.matchAll_chapter text in
  match matches with
  | first :: _ =>
      with_suffix text
        (chapter_loop text (mkScan (prefix_chunks text first) 0 0) matches)
  | [] => [mkChunk "Section 1.1" text]
  end.

(** The size-bounding pass over the chunks. *)
Definition bound_chunks (size : Z) (cs : list Chunk) : list Chunk :=
  flat_map
    (fun chunk =>
       if size <? JS.len (chunkContent chunk)
       then fallbackChunking (chunkContent chunk) (chunkName chunk) size
       else [chunk])
    cs.

Definition smartChunkText_sized (size : Z) (text : string) : list Chunk :=
  bound_chunks size (structural_chunks text).

Definition smartChunkText (text : string) : list Chunk :=
  smartChunkText_sized chunkSize text.

End Structural.

(** ** Double-precision products

    [Math.ceil(words * 1.33)] multiplies two binary64 numbers and rounds
    the product to nearest, ties to even.  Only what that expression needs
    is modelled: a non-negative integer below [2^53] (exact as a double)
    times the double nearest to 1.33, and the ceiling of the result. *)

Module Float64.

(** The double written [1.33] is [mant_1_33 * 2^-52]
    (bits [0x3FF547AE147AE148]). *)
Definition mant_1_33 : Z := 5989787504402760.

(** [p / 2^k] rounded to the nearest integer, ties to the even one. *)
Definition round_nearest_even (p k : Z) : Z :=
  let q := p / 2 ^ k in
  let r := p mod 2 ^ k in
  if 2 * r <? 2 ^ k then q
  else if 2 ^ k <? 2 * r then q + 1
  else if Z.even q then q else q + 1.

(** The product [w * 1.33] as a pair (mantissa, exponent): the exact
    product [w * mant_1_33 * 2^-52] cut to 53 significant bits. *)
Definition mul_1_33 (w : Z) : Z * Z :=
  let p := w * mant_1_33 in
  let k := Z.log2 p - 52 in
  if k <=? 0 then (p, -52) else (round_nearest_even p k, k - 52).

(** [Math.ceil] of [m * 2^e]. *)
Definition ceil (x : Z * Z) : Z :=
  let (m, e) := x in
  if 0 <=? e then m * 2 ^ e else - ((- m) / 2 ^ (- e)).

(** The same product by the Standard Library's specification of IEEE 754
    arithmetic, at the precision and exponent range of binary64. *)
Definition mul_1_33_reference (w : Z) : spec_float :=
  SFmul 53 1024 (binary_normalize 53 1024 w 0 false)
        (S754_finite false 5989787504402760 (-52)).

Definition to_spec_float (x : Z * Z) : spec_float :=
  match fst x with
  | Zpos m => S754_finite false m (snd x)
  | _ => S754_zero false
  end.

End Float64.

(** ** JSON values and [JSON.parse]

    A string value is kept as its code units, since an escape [\uXXXX]
    can name any of them; a number is kept as its lexeme, and an object
    as its members in the order of the text, a repeated name included
    (the host keeps the last value of such a name). *)

#[warnings="-register-all"]
Inductive json : Type :=
| JNull
| JBool (b : bool)
| JNumber (lexeme : string)
| JString (units : list N)
| JArray (items : list json)
| JObject (members : list (list N * json)).

Module Json.

Definition code (c : ascii) : N := N_of_ascii c.


Definition is_ws (c : ascii) : bool :=
  let n := code c in
  ((n =? 32) || (n =? 9) || (n =? 10) || (n =? 13))%N.

Fixpoint skip_ws (s : string) : string :=
  match s with
  | String c r => if is_ws c then skip_ws r else s
  | EmptyString => EmptyString
  end.

Definition is_digit (c : ascii) : bool :=
  let n := code c in ((48 <=? n) && (n <=? 57))%N.

Definition hex_value (c : ascii) : option N :=
  let n := code c in
  if ((48 <=? n) && (n <=? 57))%N then Some (n - 48)%N
  else if ((65 <=? n) && (n <=? 70))%N then Some (n - 55)%N
  else if ((97 <=? n) && (n <=? 102))%N then Some (n - 87)%N
  else None.

Definition hex4 (a b c d : ascii) : option N :=
  match hex_value a, hex_value b, hex_value c, hex_value d with
  | Some x, Some y, Some z, Some w => Some (((x * 16 + y) * 16 + z) * 16 + w)%N
  | _, _, _, _ => None
  end.

Definition simple_escape (e : ascii) : option N :=
  let n := code e in
  if (n =? 34)%N then Some 34%N          (* quote *)
  else if (n =? 92)%N then Some 92%N     (* backslash *)
  else if (n =? 47)%N then Some 47%N     (* slash *)
  else if (n =? 98)%N then Some 8%N      (* b *)
  else if (n =? 102)%N then Some 12%N    (* f *)
  else if (n =? 110)%N then Some 10%N    (* n *)
  else if (n =? 114)%N then Some 13%N    (* r *)
  else if (n =? 116)%N then Some 9%N     (* t *)
  else None.

(** The characters of a string literal behind its opening quote, up to
    and including the closing quote. *)
Fixpoint string_body (s : string) : option (list N * string) :=
  match s with
  | EmptyString => None
  | String c r =>
      if (code c =? 34)%N then Some ([], r)
      else if (code c =? 92)%N then
        match r with
        | String e r1 =>
            if (code e =? 117)%N then
              match r1 with
              | String h1 (String h2 (String h3 (String h4 r2))) =>
                  match hex4 h1 h2 h3 h4, string_body r2 with
                  | Some u, Some (us, rest) => Some (u :: us, rest)
                  | _, _ => None
                  end
              | _ => None
              end
            else
              match simple_escape e, string_body r1 with
              | Some u, Some (us, rest) => Some (u :: us, rest)
              | _, _ => None
              end
        | EmptyString => None
        end
      else if (code c <? 32)%N then None
      else
        match string_body r with
        | Some (us, rest) => Some (code c :: us, rest)
        | None => None
        end
  end.

(** The longest prefix of digits and what follows it. *)
Fixpoint digits (s : string) : string * string :=
  match s with
  | String c r =>
      if is_digit c then let (d, rest) := digits r in (String c d, rest)
      else (EmptyString, s)
  | EmptyString => (EmptyString, EmptyString)
  end.

Definition starts_with (c : ascii) (s : string) : bool :=
  match s with String d _ => (c =? d)%char | EmptyString => false end.

Definition tail (s : string) : string :=
  match s with String _ r => r | EmptyString => EmptyString end.

(** A number: an optional minus, then 0 or digits that do not start
    with 0, then an optional fraction (a dot and digits) and an optional
    exponent (e or E, an optional sign, digits). *)
Definition number (s : string) : option (string * string) :=
  let (sign, s1) := if starts_with "-" s then ("-", tail s) else (EmptyString, s) in
  let (int, s2) := digits s1 in
  match int with
  | EmptyString => None
  | String d ds =>
      if (d =? "0")%char && JS.truthy ds then None
      else
        let frac :=
          if starts_with "." s2 then
            let (f, s3) := digits (tail s2) in
            if JS.truthy f then Some ("." ++ f, s3) else None
          else Some (EmptyString, s2) in
        match frac with
        | None => None
        | Some (f, s3) =>
            if starts_with "e" s3 || starts_with "E" s3 then
              let s4 := tail s3 in
              let (esign, s5) :=
                if starts_with "+" s4 then ("+", tail s4)
                else if starts_with "-" s4 then ("-", tail s4)
                else (EmptyString, s4) in
              let (e, s6) := digits s5 in
              if JS.truthy e
              then Some (sign ++ int ++ f ++ "e" ++ esign ++ e, s6)
              else None
            else Some (sign ++ int ++ f, s3)
        end
  end.

Definition literal (word : string) (v : json) (s : string)
  : option (json * string) :=
  if String.prefix word s then Some (v, JS.drop (String.length word) s)
  else None.

(** A value, and then the elements of an array or the members of an
    object behind the first one; [fuel] bounds the nesting of calls. *)
Fixpoint value (fuel : nat) (s : string) : option (json * string) :=
  match fuel with
  | O => None
  | S fuel' =>
      match skip_ws s with
      | EmptyString => None
      | String c r =>
          let n := code c in
          if (n =? 123)%N then                              (* { *)
            match skip_ws r with
            | String c1 r1 =>
                if (code c1 =? 125)%N then Some (JObject [], r1)
                else
                  match members fuel' (skip_ws r) with
                  | Some (ms, rest) => Some (JObject ms, rest)
                  | None => None
                  end
            | EmptyString => None
            end
          else if (n =? 91)%N then                          (* [ *)
            match skip_ws r with
            | String c1 r1 =>
                if (code c1 =? 93)%N then Some (JArray [], r1)
                else
                  match elements fuel' r with
                  | Some (vs, rest) => Some (JArray vs, rest)
                  | None => None
                  end
            | EmptyString => None
            end
          else if (n =? 34)%N then                          (* quote *)
            match string_body r with
            | Some (us, rest) => Some (JString us, rest)
            | None => None
            end
          else if (n =? 116)%N then literal "true" (JBool true) (String c r)
          else if (n =? 102)%N then literal "false" (JBool false) (String c r)
          else if (n =? 110)%N then literal "null" JNull (String c r)
          else
            match number (String c r) with
            | Some (lx, rest) => Some (JNumber lx, rest)
            | None => None
            end
      end
  end

with elements (fuel : nat) (s : string) : option (list json * string) :=
  match fuel with
  | O => None
  | S fuel' =>
      match value fuel' s with
      | Some (v, rest) =>
          match skip_ws rest with
          | String c r =>
              if (code c =? 93)%N then Some ([v], r)          (* ] *)
              else if (code c =? 44)%N then                   (* , *)
                match elements fuel' r with
                | Some (vs, rest') => Some (v :: vs, rest')
                | None => None
                end
              else None
          | EmptyString => None
          end
      | None => None
      end
  end

with members (fuel : nat) (s : string)
  : option (list (list N * json) * string) :=
  match fuel with
  | O => None
  | S fuel' =>
      match skip_ws s with
      | String q r0 =>
          if (code q =? 34)%N then
            match string_body r0 with
            | Some (key, r1) =>
                match skip_ws r1 with
                | String colon r2 =>
                    if (code colon =? 58)%N then
                      match value fuel' r2 with
                      | Some (v, rest) =>
                          match skip_ws rest with
                          | String c r =>
                              if (code c =? 125)%N then Some ([(key, v)], r)
                              else if (code c =? 44)%N then
                                match members fuel' r with
                                | Some (ms, rest') => Some ((key, v) :: ms, rest')
                                | None => None
                                end
                              else None
                          | EmptyString => None
                          end
                      | None => None
                      end
                    else None
                | EmptyString => None
                end
            | None => None
            end
          else None
      | EmptyString => None
      end
  end.

(** [JSON.parse(text)]: one value, white space around it and nothing
    else; [None] stands for the [SyntaxError]. *)
Definition parse (text : string) : option json :=
  match value (2 * String.length text + 2) text with
  | Some (v, rest) =>
      match skip_ws rest with
      | EmptyString => Some v
      | String _ _ => None
      end
  | None => None
  end.

End Json.

(** ** The summarization lambda *)

Definition MAX_TOKENS_PER_MINUTE : Z := 30000.
Definition MAX_TOKENS_PER_REQUEST : Z := 6000.

(** [text.split(/\s+/).length] *)
Definition wordCount (text : string) : Z :=
  Z.of_nat (List.length (JS.split_ws text)).

(** [estimateTokens(text)] *)
Definition estimateTokens (text : string) : Z :=
  let words := wordCount text in
  Float64.ceil (Float64.mul_1_33 words).

(** What a function throws. *)
Inductive exn : Type :=
| Error (message : string)
| AxiosError (status : option Z).

Definition result (A : Type) : Type := (A + exn)%type.
Definition ok {A : Type} (a : A) : result A := inl a.
Definition throw {A : Type} (e : exn) : result A := inr e.

(** [cleanedText] in [robustJsonParse]: the response without its fence
    markers, trimmed. *)
Definition cleanedText (responseText : string) : string :=
  JS.trim (JS.strip_fences responseText).

Section Parsing.

(** The host's [JSON.parse]; [None] is its [SyntaxError]. *)
Variable JSON_parse : string -> option json.

(** [robustJsonParse(responseText)] *)
Definition robustJsonParse (responseText : string) : result json :=
  match JSON_parse (cleanedText responseText) with
  | Some v => ok v
  | None => throw (Error "AI response was not valid JSON")
  end.

(** What the generation service does with one request.  A reply
    carries its text; a reply without one is left out. *)
Inductive outcome : Type :=
| Replied (content : string)
| Failed (status : option Z).

(** The generation service as the controller meets it: the [n]-th
    request takes [took n] milliseconds and ends as [answer n] says. *)
Record service : Type := mkService {
  took : nat -> N;
  answer : nat -> outcome
}.

(** [summarizeChunk], given the outcome of its request: the [catch]
    logs and throws the error again. *)
Definition summarizeChunk (o : outcome) : result json :=
  match o with
  | Replied content => robustJsonParse (JS.trim content)
  | Failed status => throw (AxiosError status)
  end.

(** [generateOverarchingSummary] has the same shape. *)
Definition generateOverarchingSummary (o : outcome) : result json :=
  match o with
  | Replied content => robustJsonParse (JS.trim content)
  | Failed status => throw (AxiosError status)
  end.

(** One budget window of the controller: the value [startTime] had and
    the requests (time of issue, estimated tokens) sent while it had
    it, latest first. *)
Record window : Type := mkWindow {
  opened : Z;
  requests : list (Z * Z)
}.

(** The variables of [summarizeChunksWithRateLimit], the clock, and the
    record of what was sent: the current window and the closed ones,
    latest first. *)
Record limiter : Type := mkLimiter {
  summaries : list json;
  tokensUsed : Z;
  startTime : Z;
  now : Z;
  current : window;
  closed : list window
}.

Definition start (t0 : Z) : limiter :=
  mkLimiter [] 0 t0 t0 (mkWindow t0 []) [].

(** The wait and the reset inside the [if] of the loop. *)
Definition throttle (st : limiter) : limiter :=
  let elapsedTime := now st - startTime st in
  let remainingTime := 65000 - elapsedTime in
  let t := if elapsedTime <? 65000 then now st + remainingTime else now st in
  mkLimiter (summaries st) 0 t t (mkWindow t []) (current st :: closed st).

(** One iteration of the loop for the [i]-th chunk; a throw leaves the
    loop with the state reached. *)
Definition process (srv : service) (i : nat) (chunk : Chunk) (st : limiter)
  : limiter * option exn :=
  let estimatedTokens := estimateTokens (chunkContent chunk) in
  let st1 :=
    if MAX_TOKENS_PER_MINUTE <? tokensUsed st + estimatedTokens
    then throttle st else st in
  let sent :=
    mkWindow (opened (current st1))
             ((now st1, estimatedTokens) :: requests (current st1)) in
  let done := now st1 + Z.of_N (took srv i) in
  match summarizeChunk (answer srv i) with
  | inl summary =>
      (mkLimiter (summaries st1 ++ [summary])%list
                 (tokensUsed st1 + estimatedTokens)
                 (startTime st1) done sent (closed st1), None)
  | inr e =>
      (mkLimiter (summaries st1) (tokensUsed st1) (startTime st1) done sent
                 (closed st1), Some e)
  end.

Fixpoint loop (srv : service) (i : nat) (chunks : list Chunk) (st : limiter)
  : limiter * option exn :=
  match chunks with
  | [] => (st, None)
  | chunk :: rest =>
      match process srv i chunk st with
      | (st', None) => loop srv (S i) rest st'
      | (st', Some e) => (st', Some e)
      end
  end.

(** [summarizeChunksWithRateLimit(chunks)], started at time [t0]. *)
Definition summarizeChunksWithRateLimit (srv : service) (t0 : Z)
    (chunks : list Chunk) : limiter * option exn :=
  loop srv 0 chunks (start t0).

End Parsing.

(** What was sent, window by window. *)
Definition windows (st : limiter) : list window := current st :: closed st.

Definition sent_requests (st : limiter) : list (Z * Z) :=
  flat_map requests (windows st).

Definition sum_tokens (rs : list (Z * Z)) : Z :=
  fold_right (fun r acc => snd r + acc) 0 rs.

(** The estimates of the requests sent, first request first. *)
Definition history (st : limiter) : list Z := map snd (rev (sent_requests st)).

(** The estimated tokens of the requests issued in the 65 seconds that
    start at [t]. *)
Definition tokens_issued_within (rs : list (Z * Z)) (t : Z) : Z :=
  sum_tokens (filter (fun r => (t <=? fst r) && (fst r <? t + 65000)) rs).

(** ** S3 locations (all the lambdas) *)

Record location : Type := mkLocation { Bucket : string; Key : string }.

(** [parseS3Uri(s3Uri)]: [shift] takes the first piece, [join('/')]
    puts the others together again. *)
Definition parseS3Uri (s3Uri : string) : result location :=
  if negb (String.prefix "s3://" s3Uri)
  then throw (Error ("Invalid S3 URI: " ++ s3Uri))
  else
    let (first, uriParts) := JS.split_on "/" (JS.slice_from s3Uri 5) in
    ok (mkLocation first (String.concat "/" uriParts)).

(** ** The two variants side by side *)

Inductive variant : Type := StructuralVariant | FlatVariant.

Definition segment (v : variant) (text : string) : list Chunk :=
  match v with
  | StructuralVariant => Structural.smartChunkText text
  | FlatVariant => Flat.smartChunkText text
  end.

Definition maxChunkCharacterSize (v : variant) : Z :=
  match v with
  | StructuralVariant => Structural.chunkSize
  | FlatVariant => Flat.chunkSize
  end.

(** The texts the sentence grouping is run on: the chunks of the
    structural pass, or the whole text. *)
Definition grouped_texts (v : variant) (text : string) : list string :=
  match v with
  | StructuralVariant => map chunkContent (Structural.structural_chunks text)
  | FlatVariant => [text]
  end.

(** ** Properties of the chunks and of the windows *)

(** [g] is a run of consecutive elements of [ss]. *)
Definition consecutive_in (g ss : list string) : Prop :=
  exists pre post, ss = (pre ++ g ++ post)%list.

(** [content] is one sentence group of at most four of the sentences
    [ss], emitted on its own, and the group alone is longer than [cap]. *)
Definition lone_oversized_group (cap : Z) (ss : list string)
    (content : string) : Prop :=
  exists g,
    consecutive_in g ss /\ (List.length g <= 4)%nat
    /\ cap < JS.len (JS.join_sp g)
    /\ content = JS.trim (JS.join_sp g ++ " ").

Definition within_cap_or_lone (cap : Z) (ss : list string)
    (content : string) : Prop :=
  JS.len content <= cap \/ lone_oversized_group cap ss content.

(** What the running chunk can be: empty, a text that fits the cap with
    its closing blank, or one oversized group with its closing blank. *)
Definition running_ok (cap : Z) (ss : list string) (cur : string) : Prop :=
  cur = EmptyString
  \/ (exists x, cur = x ++ " " /\ JS.len x <= cap)
  \/ (exists g, consecutive_in g ss /\ (List.length g <= 4)%nat
                /\ cap < JS.len (JS.join_sp g) /\ cur = JS.join_sp g ++ " ").

(** The invariant of the grouping loop behind the cap, after the
    sentences [processed] of [ss]. *)
Record cap_inv (cap : Z) (ss processed : list string) (st : Grouping.state)
  : Prop := {
  inv_chunks :
    Forall (fun c => within_cap_or_lone cap ss (chunkContent c))
           (Grouping.chunks st);
  inv_running : running_ok cap ss (Grouping.currentChunk st);
  inv_group :
    exists pre, processed = (pre ++ Grouping.sentenceGroup st)%list;
  inv_group_len : (List.length (Grouping.sentenceGroup st) < 4)%nat
}.

(** The room the sentences take once each is followed by one blank. *)
Definition weight (ss : list string) : Z :=
  fold_right (fun s acc => JS.len s + 1 + acc) 0 ss.

(** The invariant of the grouping loop while nothing has been split
    off. *)
Record unsplit_inv (processed : list string) (st : Grouping.state)
  : Prop := {
  uns_chunks : Grouping.chunks st = [];
  uns_section : Grouping.sectionNumber st = 1%nat;
  uns_room :
    JS.len (Grouping.currentChunk st) + weight (Grouping.sentenceGroup st)
    <= weight processed
}.

(** The character at position [m] of [text] is not white space. *)
Definition nonspace_at (text : string) (m : nat) : Prop :=
  exists c, String.get m text = Some c /\ JS.is_space c = false.

(** Match positions: increasing from [lo] on, inside [text], each on a
    character that is not white space. *)
Fixpoint marks (text : string) (lo : nat) (ms : list nat) : Prop :=
  match ms with
  | [] => True
  | m :: rest =>
      (lo <= m)%nat /\ nonspace_at text m /\ marks text (S m) rest
  end.

(** A budget window holds at most the budget, or one request alone, and
    nothing sent in it was sent before it opened. *)
Definition window_ok (w : window) : Prop :=
  (sum_tokens (requests w) <= MAX_TOKENS_PER_MINUTE
   \/ (List.length (requests w) <= 1)%nat)
  /\ Forall (fun r => opened w <= fst r) (requests w).

(** Windows, latest first: each opens at least 65 seconds after the one
    before it, and after everything sent in that one. *)
Fixpoint chained (ws : list window) : Prop :=
  match ws with
  | later :: ((earlier :: _) as rest) =>
      opened earlier + 65000 <= opened later
      /\ Forall (fun r => fst r <= opened later) (requests earlier)
      /\ chained rest
  | _ => True
  end.

Definition record_ok (st : limiter) : Prop :=
  Forall window_ok (windows st) /\ chained (windows st).

(** The invariant of the controller's loop between two iterations. *)
Record limiter_inv (st : limiter) : Prop := {
  inv_used : tokensUsed st = sum_tokens (requests (current st));
  inv_start : startTime st = opened (current st);
  inv_clock : startTime st <= now st;
  inv_sent : Forall (fun r => fst r <= now st) (requests (current st));
  inv_record : record_ok st
}.


(** ** Inputs of the examples *)

Definition scenario_text : string :=
  "Chapter 1. Hello world. Chapter 2. Goodbye world.".

(** A sentence of 10,001 characters. *)
Definition long_sentence : string := N.iter 10000 (String "a") ".".

Definition four_long_sentences : string :=
  long_sentence ++ long_sentence ++ long_sentence ++ long_sentence.

(** [n + 1] one-letter words. *)
Definition many_words (n : N) : string := N.iter n (fun s => "w " ++ s) "w".

(** A service that answers every request with an empty object, the
    first after 64 seconds, the second after half a second. *)
Definition slow_then_quick : service :=
  mkService
    (fun i => match i with O => 64000%N | 1%nat => 500%N | _ => 0%N end)
    (fun _ => Replied "{}").

Definition three_chunks : list Chunk :=
  [mkChunk "Chapter 1.1" "w";
   mkChunk "Chapter 2.1" (many_words 11278);
   mkChunk "Chapter 3.1" (many_words 11278)].

Definition one_big_chunk : list Chunk :=
  [mkChunk "Chapter 1.1" (many_words 22556)].



Definition newline : string := String (ascii_of_nat 10) EmptyString.


(** Does the character [c] occur in [s]? *)
Fixpoint has_char (c : ascii) (s : string) : bool :=
  match s with
  | EmptyString => false
  | String d r => (d =? c)%char || has_char c r
  end.

(** The names the structural pass gives. *)
Definition chapter_name (n : nat) : string := "Chapter " ++ JS.show n ++ ".1".
Definition suffix_name (n : nat) : string := "Suffix " ++ JS.show (n + 1) ++ ".1".

(** One chunk per marker of [ms], the first of them being marker number
    [n]: the text from the marker to the next one, or to the end of the
    text, trimmed.  [own] tells whether the first marker is one the loop
    handles in its own iteration; the markers after it alternate.  The
    last marker's chunk is named as a chapter when the marker is handled
    in its own iteration, and as a suffix when it is left to the code
    behind the loop. *)
Fixpoint chapters_from (text : string) (n : nat) (own : bool) (ms : list nat)
  : list Chunk :=
  match ms with
  | [] => []
  | m :: rest =>
      match rest with
      | [] =>
          [mkChunk (if own then chapter_name n else suffix_name n)
                   (JS.trim (JS.slice_from text m))]
      | next :: _ =>
          mkChunk (chapter_name n) (JS.trim (JS.slice text m next))
          :: chapters_from text (S n) (negb own) rest
      end
  end.

(** A chunk a reader can use: not empty, no white space at its ends. *)
Definition clean_chunk (c : Chunk) : Prop :=
  JS.truthy (chunkContent c) = true
  /\ JS.trim (chunkContent c) = chunkContent c.

(** The sentences taken four at a time; an incomplete last group is
    left out. *)
Fixpoint groups_of_four (ss : list string) : list (list string) :=
  match ss with
  | a :: b :: c :: d :: rest => [a; b; c; d] :: groups_of_four rest
  | _ => []
  end.

(** The running chunk after the groups [gs]: each group joined by
    blanks and closed by a blank. *)
Fixpoint joined (gs : list (list string)) : string :=
  match gs with
  | [] => EmptyString
  | g :: rest => (JS.join_sp g ++ " ") ++ joined rest
  end.

(** The invariant of the grouping loop on a text that fits the cap
    with room to spare: nothing is split off, and the running chunk holds
    the complete groups of four so far. *)
Record fitting_inv (processed : list string) (st : Grouping.state)
  : Prop := {
  fit_unsplit : unsplit_inv processed st;
  fit_groups :
    exists gs,
      processed = (List.concat gs ++ Grouping.sentenceGroup st)%list
      /\ Forall (fun g => List.length g = 4%nat) gs
      /\ Grouping.currentChunk st = joined gs;
  fit_group_len : (List.length (Grouping.sentenceGroup st) < 4)%nat
}.

(** The invariant of the grouping loop behind the names of the chunks. *)
Record naming_inv (name_of : nat -> string) (st : Grouping.state)
  : Prop := {
  nam_names :
    map chunkName (Grouping.chunks st)
    = map name_of (seq 1 (List.length (Grouping.chunks st)));
  nam_section :
    Grouping.sectionNumber st = S (List.length (Grouping.chunks st));
  nam_trimmed :
    Forall (fun c => JS.trim (chunkContent c) = chunkContent c)
           (Grouping.chunks st)
}.

(** The time the requests number [i] to [i + n - 1] take together. *)
Fixpoint latency (srv : service) (i n : nat) : Z :=
  match n with
  | O => 0
  | S n' => Z.of_N (took srv i) + latency srv (S i) n'
  end.

(** The estimates of the chunks, added up. *)
Definition total_estimate (chunks : list Chunk) : Z :=
  fold_right (fun c acc => estimateTokens (chunkContent c) + acc) 0 chunks.

(** What the [n]-th request comes to. *)
Definition summary_of (parse : string -> option json) (srv : service)
    (n : nat) : result json :=
  summarizeChunk parse (answer srv n).

(** A service that refuses the second request with status 429. *)
Definition refuses_second : service :=
  mkService (fun _ => 100%N)
            (fun i => match i with
                      | 1%nat => Failed (Some 429)
                      | _ => Replied "{}"
                      end).

(** Is [s] made of white space only? *)
Fixpoint blank (s : string) : bool :=
  match s with
  | EmptyString => true
  | String c r => JS.is_space c && blank r
  end.

(** The sentences of a chunk made of the groups [b]. *)
Definition block_sentences (b : list (list string)) : list string :=
  List.concat b.

(** The invariant of the grouping loop behind the account of its
    sentences: the chunks pushed so far are made of the groups in
    [blocks], one block a chunk, the running chunk of the groups in
    [pending], and the sentences seen are those of the blocks, of
    [pending] and of the group being filled, in this order. *)
Record account_inv (processed : list string) (st : Grouping.state)
    (blocks : list (list (list string))) (pending : list (list string))
  : Prop := {
  acc_sentences :
    processed
    = (List.concat (map block_sentences blocks) ++ block_sentences pending
       ++ Grouping.sentenceGroup st)%list;
  acc_contents :
    map chunkContent (Grouping.chunks st)
    = map (fun b => JS.trim (joined b)) blocks;
  acc_running : Grouping.currentChunk st = joined pending;
  acc_group_len : (List.length (Grouping.sentenceGroup st) <= 3)%nat
}.

(** ** Words, odd white space and inner fences *)

(** The words of a text as a reader counts them: the maximal runs of
    characters that are not white space.  [inside] tells whether the
    character before belongs to a word. *)
Fixpoint words_from (inside : bool) (s : string) : nat :=
  match s with
  | EmptyString => O
  | String c r =>
      if JS.is_space c then words_from false r
      else ((if inside then 0 else 1) + words_from true r)%nat
  end.

Definition count_words (text : string) : nat := words_from false text.

(** Is the last character of [s] white space? *)
Fixpoint ends_with_space (s : string) : bool :=
  match s with
  | EmptyString => false
  | String c EmptyString => JS.is_space c
  | String _ r => ends_with_space r
  end.

(** The count the estimate is made of, told from the words: one for
    the empty text; otherwise the words, and one more for white space at
    the start and one more for white space at the end. *)
Definition pieces_of (text : string) : Z :=
  match text with
  | EmptyString => 1
  | _ =>
      Z.of_nat (count_words text)
      + (if JS.starts_with_space text then 1 else 0)
      + (if ends_with_space text then 1 else 0)
  end.

(** An empty object behind a vertical tab, which [trim] takes for white
    space and [JSON.parse] does not. *)
Definition tab_then_object : string := String (ascii_of_nat 11) "{}".

(** An empty object between fences, with a no-break space before it and
    a form feed behind it. *)
Definition fenced_between_odd_blanks : string :=
  "```json" ++ String (ascii_of_nat 160) "{}" ++ String (ascii_of_nat 12) "```".





(** * Theorems *)

(** ** Structural strategy *)

(** C3 — on the scenario text the structural variant returns one chunk,
    ["Chapter 2.1"]; the first chapter, whose marker is at index 0, is
    skipped by the test [match.index > lastIndex], so the two chunks of
    the scenario are not what comes out. *)
Theorem scenario_first_chapter_lost :
  Structural.smartChunkText scenario_text
    = [mkChunk "Chapter 2.1" "Chapter 2. Goodbye world."]
  /\ Structural.smartChunkText scenario_text
    <> [mkChunk "Chapter 1.1" "Chapter 1. Hello world.";
        mkChunk "Chapter 2.1" "Chapter 2. Goodbye world."].
Proof.
  assert (E : Structural.smartChunkText scenario_text
              = [mkChunk "Chapter 2.1" "Chapter 2. Goodbye world."])
    by (vm_compute; reflexivity).
  split; [exact E | rewrite E; discriminate].
Qed.

(** C2 — a text that starts with the marker and holds it twice gives
    one chunk before size-bounding, not two, and the words of the first
    chapter are in no chunk. *)
Theorem marker_at_start_loses_a_chunk :
  let text := "chapter one begins. CHAPTER two ends." in
  JS.matchAll_chapter text = [0%nat; 20%nat]
  /\ Structural.structural_chunks text
     = [mkChunk "Chapter 2.1" "CHAPTER two ends."]
  /\ List.length (Structural.structural_chunks text)
     <> List.length (JS.matchAll_chapter text).
Proof.
  vm_compute. repeat split; discriminate.
Qed.

(** *** Counting the chunks of the structural pass *)

Lemma marker_start_not_space (c : ascii) :
  ("c" =? JS.lower c)%char = true -> JS.is_space c = false.
Proof.
  destruct c as [[] [] [] [] [] [] [] []]; vm_compute; congruence.
Qed.

Lemma drop_step (i : nat) (text : string) (c : ascii) (r : string) :
  JS.drop i text = String c r ->
  JS.drop (S i) text = r /\ String.get i text = Some c.
Proof.
  revert text. induction i as [|i IH]; intros text H.
  - simpl in H. subst text. split; reflexivity.
  - destruct text as [|d text]; [discriminate|].
    change (JS.drop (S i) (String d text)) with (JS.drop i text) in H.
    destruct (IH text H) as [H1 H2]. split; assumption.
Qed.

Lemma marks_weaken (text : string) (lo lo' : nat) (ms : list nat) :
  (lo <= lo')%nat -> marks text lo' ms -> marks text lo ms.
Proof.
  destruct ms as [|m rest]; simpl; [tauto|].
  intros Hle (H1 & H2 & H3). repeat split; try assumption. lia.
Qed.

Lemma chapter_scan_marks (text s : string) :
  forall prev skip i,
    JS.drop i text = s -> marks text i (JS.chapter_scan prev skip i s).
Proof.
  induction s as [|c r IH]; intros prev skip i Hs; [exact I|].
  destruct (drop_step i text c r Hs) as [Hr Hget].
  cbn [JS.chapter_scan]. destruct skip as [|k].
  - destruct (JS.boundary_before prev && JS.prefix_ci "chapter" (String c r)
              && JS.boundary_after (JS.drop 7 (String c r))) eqn:Hm.
    + apply andb_true_iff in Hm. destruct Hm as [Hm _].
      apply andb_true_iff in Hm. destruct Hm as [_ Hp].
      cbn [JS.prefix_ci] in Hp. apply andb_true_iff in Hp. destruct Hp as [Hc _].
      cbn [marks]. split; [lia|]. split.
      * exists c. split; [exact Hget | apply marker_start_not_space; exact Hc].
      * apply IH. exact Hr.
    + apply marks_weaken with (lo' := S i); [lia | apply IH; exact Hr].
  - apply marks_weaken with (lo' := S i); [lia | apply IH; exact Hr].
Qed.

Lemma matchAll_chapter_marks (text : string) :
  marks text 0 (JS.matchAll_chapter text).
Proof. apply chapter_scan_marks. reflexivity. Qed.

Lemma substring_head (text : string) :
  forall a n c,
    String.get a text = Some c ->
    exists x, String.substring a (S n) text = String c x.
Proof.
  induction text as [|d text IH]; intros a n c H; [destruct a; discriminate|].
  destruct a as [|a].
  - simpl in H. injection H as ->. eexists. reflexivity.
  - simpl in H. destruct (IH a n c H) as [x E]. exists x. exact E.
Qed.

Lemma get_lt (text : string) :
  forall a c, String.get a text = Some c -> (a < String.length text)%nat.
Proof.
  induction text as [|d text IH]; intros a c H; [destruct a; discriminate|].
  destruct a as [|a]; simpl in *; [lia|].
  specialize (IH a c H). lia.
Qed.

Lemma trim_keeps_nonspace (c : ascii) (x : string) :
  JS.is_space c = false -> JS.truthy (JS.trim (String c x)) = true.
Proof.
  intros H. unfold JS.trim. cbn [JS.trimStart]. rewrite H.
  cbn [JS.trimEnd]. destruct (JS.trimEnd x); [rewrite H|]; reflexivity.
Qed.

Lemma slice_truthy (text : string) (a b : nat) :
  nonspace_at text a -> (a < b)%nat ->
  JS.truthy (JS.trim (JS.slice text a b)) = true.
Proof.
  intros (c & Hget & Hc) Hlt. unfold JS.slice.
  replace (b - a)%nat with (S (b - a - 1)) by lia.
  destruct (substring_head text a (b - a - 1) c Hget) as [x E].
  rewrite E. apply trim_keeps_nonspace. exact Hc.
Qed.

Lemma slice_from_truthy (text : string) (a : nat) :
  nonspace_at text a -> JS.truthy (JS.trim (JS.slice_from text a)) = true.
Proof.
  intros H. destruct H as (c & Hget & Hc).
  apply (slice_truthy text a (String.length text)).
  - exists c. split; assumption.
  - apply get_lt with (c := c). exact Hget.
Qed.

Lemma push_truthy_length (cs : list Chunk) (name content : string) :
  JS.truthy content = true ->
  List.length (Structural.push_if_truthy cs name content) = S (List.length cs).
Proof.
  intros H. unfold Structural.push_if_truthy. rewrite H.
  rewrite length_app. simpl. lia.
Qed.

Section StructuralCount.

Variable text : string.

(** The loop entered with [lastIndex] on the next match: that match is
    passed over, and the span from it on comes out later, as the gap in
    front of the match after it or as the suffix. *)
Lemma loop_on_match (n : nat) :
  forall ms cs k m rest,
    (List.length ms <= n)%nat -> ms = m :: rest ->
    marks text m ms -> (0 < m)%nat ->
    List.length (Structural.with_suffix text
                   (Structural.chapter_loop text (Structural.mkScan cs k m) ms))
    = (List.length cs + List.length ms)%nat.
Proof.
  induction n as [|n IH]; intros ms cs k m rest Hn -> Hmarks Hpos;
    [simpl in Hn; lia|].
  cbn [marks] in Hmarks. destruct Hmarks as (_ & Hm & Hrest).
  cbn [Structural.chapter_loop]. unfold Structural.chapter_step at 1.
  cbn [Structural.lastIndex Structural.sc_chunks Structural.chapterNumber].
  rewrite Nat.ltb_irrefl.
  destruct rest as [|m' rest'].
  - cbn [Structural.chapter_loop]. unfold Structural.with_suffix.
    cbn [Structural.lastIndex Structural.sc_chunks Structural.chapterNumber].
    destruct Hm as (c & Hget & Hc).
    pose proof (get_lt text m c Hget) as Hlt.
    apply Nat.ltb_lt in Hlt. rewrite Hlt.
    rewrite push_truthy_length; [simpl; lia|].
    apply slice_from_truthy. exists c. split; assumption.
  - cbn [marks] in Hrest. destruct Hrest as (Hlt & Hm' & Hrest').
    cbn [Structural.chapter_loop]. unfold Structural.chapter_step at 1.
    cbn [Structural.lastIndex Structural.sc_chunks Structural.chapterNumber].
    assert (Hlt' : (m <? m')%nat = true) by (apply Nat.ltb_lt; lia).
    assert (Hpos' : (0 <? m)%nat = true) by (apply Nat.ltb_lt; lia).
    rewrite Hlt', Hpos'.
    set (cs1 := Structural.push_if_truthy cs _ _).
    assert (Hcs1 : List.length cs1 = S (List.length cs)).
    { unfold cs1. apply push_truthy_length. apply slice_truthy; [exact Hm | lia]. }
    clearbody cs1.
    destruct rest' as [|m'' rest''].
    + cbn [hd_error Structural.chapter_loop]. unfold Structural.with_suffix.
      cbn [Structural.lastIndex Structural.sc_chunks].
      rewrite Nat.ltb_irrefl, length_app. simpl. lia.
    + cbn [hd_error]. cbn [marks] in Hrest'.
      rewrite (IH (m'' :: rest'') _ _ m'' rest'').
      * rewrite length_app. simpl. lia.
      * simpl in *. lia.
      * reflexivity.
      * cbn [marks]. destruct Hrest' as (H1 & H2 & H3).
        split; [lia|]. split; assumption.
      * destruct Hrest' as (H1 & _). lia.
Qed.

(** The loop entered with [lastIndex = 0] in front of a match that is
    not at the start of the text. *)
Lemma loop_from_start (cs : list Chunk) (k m : nat) (rest : list nat) :
  marks text 0 (m :: rest) -> (0 < m)%nat ->
  List.length (Structural.with_suffix text
                 (Structural.chapter_loop text (Structural.mkScan cs k 0)
                    (m :: rest)))
  = (List.length cs + List.length (m :: rest))%nat.
Proof.
  intros Hmarks Hpos. cbn [marks] in Hmarks. destruct Hmarks as (_ & Hm & Hrest).
  cbn [Structural.chapter_loop]. unfold Structural.chapter_step at 1.
  cbn [Structural.lastIndex Structural.sc_chunks Structural.chapterNumber].
  assert (H0 : (0 <? m)%nat = true) by (apply Nat.ltb_lt; lia).
  rewrite H0, Nat.ltb_irrefl.
  destruct rest as [|m' rest'].
  - cbn [hd_error Structural.chapter_loop]. unfold Structural.with_suffix.
    cbn [Structural.lastIndex Structural.sc_chunks].
    rewrite Nat.ltb_irrefl, length_app. simpl. lia.
  - cbn [hd_error].
    rewrite (loop_on_match (List.length (m' :: rest')) (m' :: rest') _ _ m' rest').
    + rewrite length_app. simpl. lia.
    + lia.
    + reflexivity.
    + cbn [marks] in *. destruct Hrest as (H1 & H2 & H3).
      split; [lia|]. split; assumption.
    + cbn [marks] in Hrest. lia.
Qed.

End StructuralCount.

(** Where the count of the structural pass stands: with the first marker
    behind the start of the text there is one chunk per marker, and one
    more for a prefix that is not blank; with the first marker at the
    start and others behind it, one chunk is missing. *)
Lemma structural_chunks_count (text : string) (first : nat) (rest : list nat) :
  JS.matchAll_chapter text = first :: rest ->
  List.length (Structural.structural_chunks text)
  = match first, rest with
    | O, [] => 1%nat
    | O, _ :: _ => List.length rest
    | S _, _ =>
        (List.length (first :: rest)
         + (if JS.truthy (JS.trim (JS.slice text 0 first)) then 1 else 0))%nat
    end.
Proof.
  intros E. pose proof (matchAll_chapter_marks text) as Hmarks.
  unfold Structural.structural_chunks. rewrite E in *.
  destruct first as [|f].
  - unfold Structural.prefix_chunks. cbn [Nat.ltb Nat.leb].
    cbn [Structural.chapter_loop]. unfold Structural.chapter_step at 1.
    cbn [Structural.lastIndex Structural.sc_chunks Structural.chapterNumber].
    cbn [Nat.ltb Nat.leb].
    cbn [marks] in Hmarks. destruct Hmarks as (_ & Hm & Hrest).
    destruct rest as [|m rest'].
    + cbn [Structural.chapter_loop]. unfold Structural.with_suffix.
      cbn [Structural.lastIndex Structural.sc_chunks Structural.chapterNumber].
      destruct Hm as (c & Hget & Hc).
      pose proof (get_lt text 0 c Hget) as Hlt.
      apply Nat.ltb_lt in Hlt. rewrite Hlt.
      rewrite push_truthy_length; [reflexivity|].
      apply slice_from_truthy. exists c. split; assumption.
    + rewrite loop_from_start.
      * reflexivity.
      * cbn [marks] in *. destruct Hrest as (H1 & H2 & H3).
        split; [lia|]. split; assumption.
      * cbn [marks] in Hrest. lia.
  - rewrite loop_from_start; [|exact Hmarks | lia].
    unfold Structural.prefix_chunks. cbn [Nat.ltb Nat.leb].
    unfold Structural.push_if_truthy.
    destruct (JS.truthy (JS.trim (JS.slice text 0 (S f)))); simpl; lia.
Qed.

(** ** Sentence grouping *)

(** The matches of the sentence pattern, end to end, are the text up to
    its last terminator; what follows holds no terminator. *)
Lemma match_sentences_cover (s : string) :
  exists rest,
    s = String.concat EmptyString (JS.match_sentences s) ++ rest
    /\ JS.match_sentences rest = [].
Proof.
  induction s as [|c s (rest & E & Hrest)].
  - exists EmptyString. split; reflexivity.
  - cbn [JS.match_sentences]. destruct (JS.is_terminator c) eqn:Hc.
    + exists rest. split; [|exact Hrest].
      destruct (JS.match_sentences s) as [|m ms].
      * cbn [String.concat append] in *. f_equal. exact E.
      * cbn [String.concat append] in *. f_equal. exact E.
    + destruct (JS.match_sentences s) as [|m ms].
      * exists (String c s). split; [reflexivity|].
        cbn [String.concat append] in E. subst s.
        cbn [JS.match_sentences]. rewrite Hc, Hrest. reflexivity.
      * exists rest. split; [|exact Hrest].
        destruct ms as [|m' ms]; cbn [String.concat append] in *;
          f_equal; exact E.
Qed.

(** C5 — sentences left in [sentenceGroup] when the loop ends, and text
    behind the last terminator, are in no chunk: the last of five
    sentences is lost, a trailing clause is lost, and a text of one
    sentence gives no chunk at all. *)
Theorem trailing_sentences_dropped :
  Flat.smartChunkText "One. Two. Three. Four. Five."
    = [mkChunk "Section 1" "One.  Two.  Three.  Four."]
  /\ Structural.fallbackChunking "One. Two. Three. Four. Five." "Chapter 1.1" 40
    = [mkChunk "Chapter 1.1.1" "One.  Two.  Three.  Four."]
  /\ Flat.smartChunkText "One. Two. Three. Four. and then some"
    = [mkChunk "Section 1" "One.  Two.  Three.  Four."]
  /\ Flat.smartChunkText "Hello." = [].
Proof.
  vm_compute. repeat split; reflexivity.
Qed.

(** C6 — the structural variant turns the empty text into one chunk
    with empty content, a text of blanks into a chunk of blanks, and the
    grouping loop emits an empty chunk in front of a first group that
    exceeds the cap. *)
Theorem empty_chunks_emitted :
  Structural.smartChunkText EmptyString = [mkChunk "Section 1.1" EmptyString]
  /\ Structural.smartChunkText "   " = [mkChunk "Section 1.1" "   "]
  /\ JS.trim "   " = EmptyString
  /\ hd_error (Flat.smartChunkText four_long_sentences)
     = Some (mkChunk "Section 1" EmptyString).
Proof.
  repeat split; vm_compute; reflexivity.
Qed.

(** *** Lengths of trimmed and appended strings *)

Lemma len_append (a b : string) : JS.len (a ++ b) = JS.len a + JS.len b.
Proof.
  unfold JS.len. induction a as [|c a IH]; simpl String.length.
  - lia.
  - change (String.length (a ++ b)) with (String.length (a ++ b)) in *.
    lia.
Qed.

Lemma len_nonneg (s : string) : 0 <= JS.len s.
Proof. unfold JS.len. lia. Qed.

Lemma len_empty : JS.len EmptyString = 0.
Proof. reflexivity. Qed.

Lemma len_String (c : ascii) (s : string) : JS.len (String c s) = 1 + JS.len s.
Proof. unfold JS.len. simpl String.length. lia. Qed.

Lemma trimEnd_len (s : string) : JS.len (JS.trimEnd s) <= JS.len s.
Proof.
  induction s as [|c s IH]; simpl.
  - lia.
  - destruct (JS.trimEnd s) as [|d t].
    + destruct (JS.is_space c); rewrite ?len_String, ?len_empty in *;
        pose proof (len_nonneg s); lia.
    + rewrite !len_String in *. lia.
Qed.

Lemma trimStart_len (s : string) : JS.len (JS.trimStart s) <= JS.len s.
Proof.
  induction s as [|c s IH]; simpl.
  - lia.
  - destruct (JS.is_space c); rewrite ?len_String; lia.
Qed.

Lemma trim_len (s : string) : JS.len (JS.trim s) <= JS.len s.
Proof.
  unfold JS.trim.
  pose proof (trimEnd_len (JS.trimStart s)). pose proof (trimStart_len s). lia.
Qed.

Lemma trimEnd_app_space (x : string) : JS.trimEnd (x ++ " ") = JS.trimEnd x.
Proof.
  induction x as [|c x IH].
  - reflexivity.
  - simpl. rewrite IH. reflexivity.
Qed.

Lemma trimStart_app_space (x : string) :
  JS.trimStart (x ++ " ") = EmptyString
  \/ exists y, JS.trimStart (x ++ " ") = y ++ " " /\ JS.len y <= JS.len x.
Proof.
  induction x as [|c x IH].
  - left. reflexivity.
  - simpl. destruct (JS.is_space c).
    + destruct IH as [E | (y & E & L)].
      * left. exact E.
      * right. exists y. rewrite len_String. split; [exact E | lia].
    + right. exists (String c x). split; [reflexivity | lia].
Qed.

(** The blank that closes the running chunk never counts against the
    cap: trimming takes it away. *)
Lemma trim_app_space_len (x : string) : JS.len (JS.trim (x ++ " ")) <= JS.len x.
Proof.
  unfold JS.trim.
  destruct (trimStart_app_space x) as [E | (y & E & L)]; rewrite E.
  - simpl. apply len_nonneg.
  - rewrite trimEnd_app_space. pose proof (trimEnd_len y). lia.
Qed.


(** *** The cap on the chunks of the grouping loop *)

Section GroupingCap.

Variable name_of : nat -> string.
Variable cap : Z.
Hypothesis cap_nonneg : 0 <= cap.

(** All the sentences the loop runs over. *)
Variable ss : list string.

Lemma running_trim_ok (cur : string) :
  running_ok cap ss cur -> within_cap_or_lone cap ss (JS.trim cur).
Proof.
  intros [E | [(x & E & L) | (g & Hc & Hl & Hbig & E)]]; subst cur.
  - left. simpl. exact cap_nonneg.
  - left. pose proof (trim_app_space_len x). lia.
  - right. exists g. repeat split; assumption.
Qed.

Lemma cap_inv_init : cap_inv cap ss [] Grouping.init.
Proof.
  constructor; simpl.
  - constructor.
  - left. reflexivity.
  - exists []. reflexivity.
  - lia.
Qed.

Lemma append_assoc (a b c : string) : (a ++ b) ++ c = a ++ b ++ c.
Proof.
  induction a as [|x a IH]; simpl; [reflexivity | f_equal; exact IH].
Qed.

Lemma cap_inv_step (processed post : list string) (s : string)
    (st : Grouping.state) :
  ss = (processed ++ s :: post)%list ->
  cap_inv cap ss processed st ->
  cap_inv cap ss (processed ++ [s]) (Grouping.step name_of cap st s).
Proof.
  intros Hss [Hch Hrun [pre Hpre] Hlen].
  assert (Hcons : consecutive_in (Grouping.sentenceGroup st ++ [s])%list ss).
  { exists pre, post. rewrite Hss, Hpre, <- !app_assoc. reflexivity. }
  assert (Hglen : List.length (Grouping.sentenceGroup st ++ [s])%list
                  = S (List.length (Grouping.sentenceGroup st))).
  { rewrite length_app. simpl. lia. }
  unfold Grouping.step.
  destruct ((4 <=? Z.of_nat (List.length (Grouping.sentenceGroup st ++ [s])%list))
            || (cap <? JS.len (Grouping.currentChunk st) + JS.len s)) eqn:Hflush.
  - set (G := JS.join_sp (Grouping.sentenceGroup st ++ [s])%list).
    destruct (cap <? JS.len (Grouping.currentChunk st) + JS.len G) eqn:Hover;
      constructor; simpl.
    + apply Forall_app. split; [exact Hch|].
      constructor; [|constructor]. simpl. apply running_trim_ok. exact Hrun.
    + destruct (Z_le_gt_dec (JS.len G) cap) as [Hfit | Hbig].
      * right. left. exists G. split; [reflexivity | exact Hfit].
      * right. right. exists (Grouping.sentenceGroup st ++ [s])%list.
        fold G. split; [exact Hcons|]. split; [lia|]. split; [lia|reflexivity].
    + exists (processed ++ [s])%list. rewrite app_nil_r. reflexivity.
    + lia.
    + exact Hch.
    + right. left. exists (Grouping.currentChunk st ++ G).
      apply Z.ltb_ge in Hover. split.
      * symmetry. apply append_assoc.
      * rewrite len_append. lia.
    + exists (processed ++ [s])%list. rewrite app_nil_r. reflexivity.
    + lia.
  - apply orb_false_iff in Hflush. destruct Hflush as [H4 _].
    apply Z.leb_gt in H4.
    constructor; simpl.
    + exact Hch.
    + exact Hrun.
    + exists pre. rewrite Hpre, <- app_assoc. reflexivity.
    + lia.
Qed.

Lemma cap_inv_fold (post processed : list string) (st : Grouping.state) :
  ss = (processed ++ post)%list ->
  cap_inv cap ss processed st ->
  cap_inv cap ss ss (fold_left (Grouping.step name_of cap) post st).
Proof.
  revert processed st.
  induction post as [|s post IH]; intros processed st Hss Hinv; simpl.
  - rewrite app_nil_r in Hss. subst. exact Hinv.
  - apply (IH (processed ++ [s])%list).
    + rewrite <- app_assoc. exact Hss.
    + apply cap_inv_step with (post := post); assumption.
Qed.

Lemma run_within_cap (c : Chunk) :
  In c (Grouping.run name_of cap ss) ->
  within_cap_or_lone cap ss (chunkContent c).
Proof.
  unfold Grouping.run, Grouping.finish.
  pose proof (cap_inv_fold ss [] Grouping.init eq_refl cap_inv_init)
    as [Hch Hrun _ _].
  set (st := fold_left (Grouping.step name_of cap) ss Grouping.init) in *.
  rewrite Forall_forall in Hch.
  destruct (0 <? JS.len (Grouping.currentChunk st)); intros Hin.
  - apply in_app_or in Hin. destruct Hin as [Hin | [E | []]].
    + apply Hch. exact Hin.
    + subst c. simpl. apply running_trim_ok. exact Hrun.
  - apply Hch. exact Hin.
Qed.

End GroupingCap.

(** C4 (as amended) — in either variant a chunk is within the cap of
    the variant (100,000 or 40,000 characters) unless it is one sentence
    group, at most four consecutive sentences joined by blanks, that is
    longer than the cap on its own and makes up the whole chunk. *)
Theorem chunk_within_cap_or_lone_group (v : variant) (text : string)
    (c : Chunk) :
  In c (segment v text) ->
  JS.len (chunkContent c) <= maxChunkCharacterSize v
  \/ exists source,
       In source (grouped_texts v text)
       /\ lone_oversized_group (maxChunkCharacterSize v)
            (JS.sentences_of source) (chunkContent c).
Proof.
  destruct v; simpl.
  - unfold Structural.smartChunkText, Structural.smartChunkText_sized,
      Structural.bound_chunks.
    intros Hin. apply in_flat_map in Hin. destruct Hin as (parent & Hp & Hin).
    destruct (Structural.chunkSize <? JS.len (chunkContent parent)) eqn:Hbig.
    + apply run_within_cap in Hin; [|unfold Structural.chunkSize; lia].
      destruct Hin as [Hle | Hlone]; [left; exact Hle|].
      right. exists (chunkContent parent). split; [|exact Hlone].
      apply in_map. exact Hp.
    + destruct Hin as [E | []]. subst c. apply Z.ltb_ge in Hbig. left. exact Hbig.
  - unfold Flat.smartChunkText, Flat.smartChunkText_sized. intros Hin.
    apply run_within_cap in Hin; [|unfold Flat.chunkSize; lia].
    destruct Hin as [Hle | Hlone]; [left; exact Hle|].
    right. exists text. split; [left; reflexivity | exact Hlone].
Qed.

Lemma chunk_within_cap_or_lone_group_witness :
  In (mkChunk "Section 1" "One.  Two.  Three.  Four.")
     (segment FlatVariant "One. Two. Three. Four. Five.")
  /\ (JS.len "One.  Two.  Three.  Four." <= maxChunkCharacterSize FlatVariant
      \/ exists source,
           In source (grouped_texts FlatVariant "One. Two. Three. Four. Five.")
           /\ lone_oversized_group (maxChunkCharacterSize FlatVariant)
                (JS.sentences_of source) "One.  Two.  Three.  Four.").
Proof.
  assert (H : In (mkChunk "Section 1" "One.  Two.  Three.  Four.")
                 (segment FlatVariant "One. Two. Three. Four. Five."))
    by (vm_compute; left; reflexivity).
  split; [exact H|].
  exact (chunk_within_cap_or_lone_group FlatVariant
           "One. Two. Three. Four. Five."
           (mkChunk "Section 1" "One.  Two.  Three.  Four.") H).
Defined.

(** C4 (as stated) fails: four sentences of 10,001 characters, each well
    below the cap of 40,000, come out of the flat variant as one chunk
    of 40,007 characters. *)
Lemma group_of_short_sentences_exceeds_cap :
  (forall s, In s (JS.sentences_of four_long_sentences) ->
             JS.len s <= maxChunkCharacterSize FlatVariant)
  /\ exists c, In c (segment FlatVariant four_long_sentences)
               /\ maxChunkCharacterSize FlatVariant < JS.len (chunkContent c).
Proof.
  split.
  - assert (H : forallb (fun s => JS.len s <=? 40000)
                        (JS.sentences_of four_long_sentences) = true)
      by (vm_compute; reflexivity).
    rewrite forallb_forall in H. intros s Hs. apply Z.leb_le. apply H. exact Hs.
  - assert (H : existsb (fun c => 40000 <? JS.len (chunkContent c))
                        (segment FlatVariant four_long_sentences) = true)
      by (vm_compute; reflexivity).
    apply existsb_exists in H. destruct H as (c & Hin & Hlen).
    exists c. split; [exact Hin | apply Z.ltb_lt; exact Hlen].
Qed.

(** *** Running the grouping loop again on a text that fits *)

Lemma weight_app (a b : list string) :
  weight (a ++ b)%list = weight a + weight b.
Proof.
  induction a as [|s a IH]; simpl; [reflexivity|].
  fold (weight (a ++ b)%list). fold (weight a). lia.
Qed.

Lemma weight_nonneg (ss : list string) : 0 <= weight ss.
Proof.
  induction ss as [|s ss IH]; simpl; [lia|].
  fold (weight ss). pose proof (len_nonneg s). lia.
Qed.

(** Joining by blanks leaves room for one more blank. *)
Lemma join_sp_len (g : list string) :
  g <> [] -> JS.len (JS.join_sp g) + 1 = weight g.
Proof.
  induction g as [|s g IH]; intros Hne; [congruence|].
  destruct g as [|s' g].
  - change (JS.join_sp [s]) with s.
    change (weight [s]) with (JS.len s + 1 + 0). lia.
  - change (JS.join_sp (s :: s' :: g)) with (s ++ " " ++ JS.join_sp (s' :: g)).
    change (weight (s :: s' :: g)) with (JS.len s + 1 + weight (s' :: g)).
    rewrite !len_append. rewrite <- IH by discriminate.
    change (JS.len " ") with 1. lia.
Qed.

Lemma match_sentences_weight (s : string) :
  weight (JS.match_sentences s)
  <= JS.len s + Z.of_nat (List.length (JS.match_sentences s)).
Proof.
  induction s as [|c s IH]; simpl JS.match_sentences.
  - simpl. lia.
  - rewrite len_String. destruct (JS.is_terminator c).
    + change (weight (String c EmptyString :: JS.match_sentences s))
        with (JS.len (String c EmptyString) + 1 + weight (JS.match_sentences s)).
      rewrite len_String, len_empty. simpl List.length. lia.
    + destruct (JS.match_sentences s) as [|m ms].
      * change (weight []) with 0. simpl List.length.
        pose proof (len_nonneg s). lia.
      * change (weight (String c m :: ms))
          with (JS.len (String c m) + 1 + weight ms).
        change (weight (m :: ms)) with (JS.len m + 1 + weight ms) in IH.
        rewrite len_String. simpl List.length in *. lia.
Qed.

Lemma sentences_of_weight (text : string) :
  weight (JS.sentences_of text)
  <= JS.len text + Z.of_nat (List.length (JS.sentences_of text)).
Proof.
  unfold JS.sentences_of.
  pose proof (match_sentences_weight text) as H.
  destruct (JS.match_sentences text) as [|m ms].
  - simpl. lia.
  - exact H.
Qed.

Section GroupingUnsplit.

Variable name_of : nat -> string.
Variable cap : Z.
Variable ss : list string.
Hypothesis fits : weight ss <= cap.

Lemma unsplit_inv_step (processed post : list string) (s : string)
    (st : Grouping.state) :
  ss = (processed ++ s :: post)%list ->
  unsplit_inv processed st ->
  unsplit_inv (processed ++ [s]) (Grouping.step name_of cap st s).
Proof.
  intros Hss [Hch Hsec Hroom].
  assert (Hbound : weight (processed ++ [s])%list <= cap).
  { rewrite Hss in fits. rewrite weight_app in *.
    change (weight (s :: post)) with (JS.len s + 1 + weight post) in fits.
    change (weight [s]) with (JS.len s + 1 + 0).
    pose proof (weight_nonneg post). lia. }
  assert (Hw : weight (processed ++ [s])%list = weight processed + JS.len s + 1).
  { rewrite weight_app. change (weight [s]) with (JS.len s + 1 + 0). lia. }
  assert (Hg : weight (Grouping.sentenceGroup st ++ [s])%list
               = weight (Grouping.sentenceGroup st) + JS.len s + 1).
  { rewrite weight_app. change (weight [s]) with (JS.len s + 1 + 0). lia. }
  pose proof (join_sp_len (Grouping.sentenceGroup st ++ [s])%list) as Hjoin.
  assert (Hne : (Grouping.sentenceGroup st ++ [s])%list <> [])
    by (destruct (Grouping.sentenceGroup st); discriminate).
  specialize (Hjoin Hne).
  unfold Grouping.step.
  destruct ((4 <=? Z.of_nat (List.length (Grouping.sentenceGroup st ++ [s])%list))
            || (cap <? JS.len (Grouping.currentChunk st) + JS.len s)).
  - destruct (cap <? JS.len (Grouping.currentChunk st)
                     + JS.len (JS.join_sp (Grouping.sentenceGroup st ++ [s])%list))
      eqn:Hover.
    + apply Z.ltb_lt in Hover. lia.
    + constructor; simpl; try assumption.
      rewrite !len_append. change (JS.len " ") with 1. lia.
  - constructor; simpl; try assumption. lia.
Qed.

Lemma unsplit_inv_fold (post processed : list string) (st : Grouping.state) :
  ss = (processed ++ post)%list ->
  unsplit_inv processed st ->
  unsplit_inv ss (fold_left (Grouping.step name_of cap) post st).
Proof.
  revert processed st.
  induction post as [|s post IH]; intros processed st Hss Hinv; simpl.
  - rewrite app_nil_r in Hss. subst. exact Hinv.
  - apply (IH (processed ++ [s])%list).
    + rewrite <- app_assoc. exact Hss.
    + apply unsplit_inv_step with (post := post); assumption.
Qed.

Lemma run_unsplit :
  Grouping.run name_of cap ss = []
  \/ exists content, Grouping.run name_of cap ss = [mkChunk (name_of 1) content].
Proof.
  unfold Grouping.run, Grouping.finish.
  assert (H0 : unsplit_inv [] Grouping.init)
    by (constructor; simpl; try reflexivity; lia).
  pose proof (unsplit_inv_fold ss [] Grouping.init eq_refl H0) as [Hch Hsec _].
  destruct (0 <? JS.len _).
  - right. rewrite Hch, Hsec. eexists. reflexivity.
  - left. exact Hch.
Qed.

End GroupingUnsplit.

(** C7 (as stated) fails: the chunk the fallback makes of four sentences
    comes back from a second run under another name and with wider gaps,
    and a chunk of eight sentences that fits the cap of 31 exactly is
    split in two by the second run. *)
Lemma fallback_not_idempotent :
  Structural.fallbackChunking "A. B. C. D." "x" 100
    = [mkChunk "x.1" "A.  B.  C.  D."]
  /\ Structural.fallbackChunking "A.  B.  C.  D." "x.1" 100
    = [mkChunk "x.1.1" "A.   B.   C.   D."]
  /\ Structural.fallbackChunking "A.  B.  C.  D." "x.1" 100
    <> [mkChunk "x.1" "A.  B.  C.  D."]
  /\ Structural.fallbackChunking "A. B. C. D. E. F. G. H." "x" 31
    = [mkChunk "x.1" "A.  B.  C.  D.  E.  F.  G.  H."]
  /\ Structural.fallbackChunking "A.  B.  C.  D.  E.  F.  G.  H." "x.1" 31
    = [mkChunk "x.1.1" "A.   B.   C.   D."; mkChunk "x.1.2" "E.   F.   G.   H."].
Proof.
  vm_compute. repeat split; try reflexivity. discriminate.
Qed.

(** ** The token budget *)

Lemma throttle_inv (st : limiter) :
  limiter_inv st ->
  limiter_inv (throttle st) /\ requests (current (throttle st)) = [].
Proof.
  intros [Hused Hstart Hclock Hsent [Hok Hchain]].
  unfold throttle.
  set (t := if now st - startTime st <? 65000
            then now st + (65000 - (now st - startTime st)) else now st).
  assert (Ht : startTime st + 65000 <= t /\ now st <= t).
  { unfold t. destruct (now st - startTime st <? 65000) eqn:E.
    - apply Z.ltb_lt in E. lia.
    - apply Z.ltb_ge in E. lia. }
  split; [|reflexivity].
  constructor; simpl.
  - reflexivity.
  - reflexivity.
  - lia.
  - constructor.
  - split.
    + unfold windows. simpl. constructor; [|exact Hok].
      split; simpl; [left; unfold MAX_TOKENS_PER_MINUTE; lia | constructor].
    + unfold windows in *. simpl. split; [rewrite <- Hstart; lia|].
      split; [|exact Hchain].
      eapply Forall_impl; [|exact Hsent]. simpl. intros r Hr. lia.
Qed.

Lemma chained_same_opening (w w' : window) (ws : list window) :
  opened w' = opened w -> chained (w :: ws) -> chained (w' :: ws).
Proof.
  intros E. destruct ws as [|earlier ws]; simpl; [tauto|].
  rewrite E. tauto.
Qed.

(** One iteration keeps the record in order whatever the service does,
    and keeps the whole invariant when the request succeeds. *)
Lemma process_inv (parse : string -> option json) (srv : service) (i : nat)
    (chunk : Chunk) (st : limiter) :
  limiter_inv st ->
  record_ok (fst (process parse srv i chunk st))
  /\ (snd (process parse srv i chunk st) = None ->
      limiter_inv (fst (process parse srv i chunk st))).
Proof.
  intros Hinv. unfold process.
  set (e := estimateTokens (chunkContent chunk)).
  set (st1 := if MAX_TOKENS_PER_MINUTE <? tokensUsed st + e
              then throttle st else st).
  assert (H1 : limiter_inv st1
               /\ (tokensUsed st1 + e <= MAX_TOKENS_PER_MINUTE
                   \/ requests (current st1) = [])).
  { unfold st1. destruct (MAX_TOKENS_PER_MINUTE <? tokensUsed st + e) eqn:E.
    - destruct (throttle_inv st Hinv) as [Hi Hr]. split; [exact Hi | right; exact Hr].
    - apply Z.ltb_ge in E. split; [exact Hinv | left; exact E]. }
  clearbody st1. destruct H1 as [[Hused Hstart Hclock Hsent [Hok Hchain]] Hroom].
  set (sent := mkWindow (opened (current st1))
                        ((now st1, e) :: requests (current st1))).
  assert (Hrec : Forall window_ok (sent :: closed st1)
                 /\ chained (sent :: closed st1)).
  { unfold windows in *. split.
    - inversion Hok as [|w ws [Hsum Hafter] Hrest]; subst.
      constructor; [|exact Hrest]. split; simpl.
      + destruct Hroom as [Hle | Hnil].
        * left. rewrite Hused in Hle. lia.
        * right. rewrite Hnil. simpl. lia.
      + constructor; [simpl; lia | exact Hafter].
    - apply chained_same_opening with (w := current st1); [reflexivity | exact Hchain]. }
  pose proof (N2Z.is_nonneg (took srv i)) as Htook.
  destruct (summarizeChunk parse (answer srv i)) as [summary | err]; simpl.
  - split; [exact Hrec|]. intros _. constructor; simpl.
    + rewrite Hused. lia.
    + exact Hstart.
    + lia.
    + constructor; [simpl; lia|].
      eapply Forall_impl; [|exact Hsent]. simpl. intros r Hr. lia.
    + exact Hrec.
  - split; [exact Hrec | discriminate].
Qed.

Lemma loop_record_ok (parse : string -> option json) (srv : service)
    (chunks : list Chunk) (i : nat) (st : limiter) :
  limiter_inv st -> record_ok (fst (loop parse srv i chunks st)).
Proof.
  revert i st. induction chunks as [|chunk rest IH]; intros i st Hinv; simpl.
  - apply Hinv.
  - pose proof (process_inv parse srv i chunk st Hinv) as [Hrec Hnext].
    destruct (process parse srv i chunk st) as [st' [err|]]; simpl in *.
    + exact Hrec.
    + apply IH. apply Hnext. reflexivity.
Qed.

Lemma throttle_sent (st : limiter) :
  sent_requests (throttle st) = sent_requests st.
Proof. reflexivity. Qed.

(** Each iteration sends one request, with the estimate of its chunk. *)
Lemma process_history (parse : string -> option json) (srv : service)
    (i : nat) (chunk : Chunk) (st : limiter) :
  history (fst (process parse srv i chunk st))
  = (history st ++ [estimateTokens (chunkContent chunk)])%list.
Proof.
  unfold process.
  set (e := estimateTokens (chunkContent chunk)).
  set (st1 := if MAX_TOKENS_PER_MINUTE <? tokensUsed st + e
              then throttle st else st).
  assert (H1 : sent_requests st1 = sent_requests st).
  { unfold st1. destruct (MAX_TOKENS_PER_MINUTE <? tokensUsed st + e);
      [apply throttle_sent | reflexivity]. }
  assert (H : forall st', windows st' =
                 mkWindow (opened (current st1))
                          ((now st1, e) :: requests (current st1))
                 :: closed st1 ->
               history st' = (history st ++ [e])%list).
  { intros st' Hw. unfold history, sent_requests in *. rewrite Hw.
    unfold windows in H1. cbn [flat_map requests] in *.
    cbn [app rev]. rewrite H1, map_app. reflexivity. }
  destruct (summarizeChunk parse (answer srv i)); apply H; reflexivity.
Qed.

Lemma loop_history (parse : string -> option json) (srv : service)
    (chunks : list Chunk) (i : nat) (st : limiter) :
  exists n,
    history (fst (loop parse srv i chunks st))
    = (history st
       ++ firstn n (map (fun c => estimateTokens (chunkContent c)) chunks))%list.
Proof.
  revert i st. induction chunks as [|chunk rest IH]; intros i st; simpl.
  - exists 0%nat. rewrite app_nil_r. reflexivity.
  - pose proof (process_history parse srv i chunk st) as Hp.
    destruct (process parse srv i chunk st) as [st' [err|]]; simpl in *.
    + exists 1%nat. exact Hp.
    + destruct (IH (S i) st') as [n Hn]. exists (S n).
      rewrite Hn, Hp, <- app_assoc. reflexivity.
Qed.

Lemma start_inv (t0 : Z) : limiter_inv (start t0).
Proof.
  constructor; simpl; try reflexivity; try lia.
  - constructor.
  - split; unfold windows; simpl; [|exact I].
    constructor; [|constructor].
    split; simpl; [left; unfold MAX_TOKENS_PER_MINUTE; lia | constructor].
Qed.

(** C1 (as amended) — whatever the chunks, the service and the starting
    time, every budget window of the controller (the requests sent
    between two resets of its counter) holds at most 30,000 estimated
    tokens or a single request; a request is sent no earlier than its
    window opened, and a window opens at least 65 seconds after the
    window before it and after everything sent in that one.  The
    requests are, in order, those of the first chunks, each counted with
    [estimateTokens] of its content. *)
Theorem budget_windows_respected (parse : string -> option json)
    (srv : service) (t0 : Z) (chunks : list Chunk) :
  let st := fst (summarizeChunksWithRateLimit parse srv t0 chunks) in
  Forall window_ok (windows st)
  /\ chained (windows st)
  /\ exists n,
       history st
       = firstn n (map (fun c => estimateTokens (chunkContent c)) chunks).
Proof.
  cbv zeta. split; [|split].
  - apply loop_record_ok. apply start_inv.
  - apply loop_record_ok. apply start_inv.
  - destruct (loop_history parse srv chunks 0 (start t0)) as [n Hn].
    exists n. exact Hn.
Qed.

(** C1 (as stated) fails: with a first request that takes 64 seconds,
    two chunks of 15,002 estimated tokens are sent at 64.0 s and 65.0 s,
    on either side of the reset, so the 65 seconds from 64.0 s on hold
    30,004 tokens; and a single chunk of 30,001 estimated tokens is sent
    all the same once the wait is over. *)
Lemma rolling_window_exceeded :
  map (fun c => estimateTokens (chunkContent c)) three_chunks
    = [2; 15002; 15002]
  /\ sent_requests
       (fst (summarizeChunksWithRateLimit Json.parse slow_then_quick 0
               three_chunks))
     = [(65000, 15002); (64000, 15002); (0, 2)]
  /\ tokens_issued_within
       (sent_requests
          (fst (summarizeChunksWithRateLimit Json.parse slow_then_quick 0
                  three_chunks))) 64000
     = 30004
  /\ tokens_issued_within
       (sent_requests
          (fst (summarizeChunksWithRateLimit Json.parse slow_then_quick 0
                  one_big_chunk))) 65000
     = 30001
  /\ MAX_TOKENS_PER_MINUTE < 30001.
Proof.
  repeat split; vm_compute; reflexivity.
Qed.

(** ** The token estimate *)

Lemma ceil_div_unique (a b n : Z) :
  0 < b -> (n - 1) * b < a <= n * b -> - ((- a) / b) = n.
Proof.
  intros Hb [Hlo Hhi].
  assert (E : (- a) / b = - n); [|lia].
  symmetry. apply Z.div_unique with (r := n * b - a); lia.
Qed.

Lemma round_nearest_even_bounds (p k : Z) :
  0 <= k ->
  2 * p - 2 ^ k <= 2 * (Float64.round_nearest_even p k * 2 ^ k) <= 2 * p + 2 ^ k.
Proof.
  intros Hk. unfold Float64.round_nearest_even.
  assert (HX : 0 < 2 ^ k) by (apply Z.pow_pos_nonneg; lia).
  pose proof (Z.div_mod p (2 ^ k) ltac:(lia)) as Hdm.
  pose proof (Z.mod_pos_bound p (2 ^ k) HX) as Hr.
  set (X := 2 ^ k) in *. set (q := p / X) in *. set (r := p mod X) in *.
  destruct (2 * r <? X) eqn:H1; [apply Z.ltb_lt in H1; nia|].
  apply Z.ltb_ge in H1.
  destruct (X <? 2 * r) eqn:H2; [apply Z.ltb_lt in H2; nia|].
  apply Z.ltb_ge in H2.
  destruct (Z.even q); nia.
Qed.

Lemma round_nearest_even_down (p k : Z) :
  2 * (p mod 2 ^ k) < 2 ^ k -> Float64.round_nearest_even p k = p / 2 ^ k.
Proof.
  intros H. unfold Float64.round_nearest_even.
  apply Z.ltb_lt in H. rewrite H. reflexivity.
Qed.

Lemma mant_1_33_eq : 100 * Float64.mant_1_33 = 133 * 2 ^ 52 + 32.
Proof. reflexivity. Qed.

(** On sample word counts, small and large, the product is the one the
    reference arithmetic gives. *)
Lemma mul_1_33_matches_reference :
  let samples := [0; 1; 2; 3; 7; 100; 300; 1000; 22556; 22557; 75000;
                  12345678; 2 ^ 31; 2 ^ 44 - 1; 2 ^ 44] in
  map (fun w => Float64.to_spec_float (Float64.mul_1_33 w)) samples
  = map Float64.mul_1_33_reference samples.
Proof. vm_compute. reflexivity. Qed.

(** Up to [2^44] words the rounded product has the ceiling of the exact
    one: the double nearest to 1.33 is too high by [32 / (100 * 2^52)],
    less than what rounding to 53 bits forgives. *)
Lemma mul_1_33_ceil (w : Z) :
  1 <= w <= 2 ^ 44 ->
  Float64.ceil (Float64.mul_1_33 w) = (133 * w + 99) / 100.
Proof.
  intros [Hw1 Hw2].
  destruct (Z.eq_dec w 1) as [-> | Hne]; [reflexivity|].
  unfold Float64.mul_1_33.
  pose proof mant_1_33_eq as HM.
  set (M := Float64.mant_1_33) in *.
  assert (HMlo : 2 ^ 52 <= M) by (unfold M, Float64.mant_1_33; lia).
  assert (HMhi : M < 2 ^ 53) by (unfold M, Float64.mant_1_33; lia).
  set (p := w * M).
  assert (Hp53 : 2 ^ 53 <= p) by (unfold p; change (2 ^ 53) with (2 * 2 ^ 52); nia).
  assert (Hp97 : p < 2 ^ 97).
  { unfold p. change (2 ^ 97) with (2 ^ 44 * 2 ^ 53). nia. }
  assert (Hp0 : 0 < p) by lia.
  assert (Hl53 : 53 <= Z.log2 p) by (apply Z.log2_le_pow2; lia).
  assert (Hl97 : Z.log2 p < 97) by (apply Z.log2_lt_pow2; lia).
  pose proof (Z.log2_spec p Hp0) as [Hlo Hhi].
  set (k := Z.log2 p - 52) in *.
  assert (Hk : 1 <= k <= 44) by (unfold k; lia).
  replace (Z.log2 p) with (k + 52) in Hlo by (unfold k; lia).
  replace (Z.succ (Z.log2 p)) with (k + 53) in Hhi by (unfold k; lia).
  rewrite Z.pow_add_r in Hlo, Hhi by lia.
  destruct (k <=? 0) eqn:Hk0; [apply Z.leb_le in Hk0; lia|].
  unfold Float64.ceil.
  destruct (0 <=? k - 52) eqn:He; [apply Z.leb_le in He; lia|].
  replace (- (k - 52)) with (52 - k) by lia.
  assert (HXY : 2 ^ k * 2 ^ (52 - k) = 2 ^ 52).
  { rewrite <- Z.pow_add_r by lia. f_equal. lia. }
  assert (HX : 0 < 2 ^ k) by (apply Z.pow_pos_nonneg; lia).
  assert (HY : 0 < 2 ^ (52 - k)) by (apply Z.pow_pos_nonneg; lia).
  pose proof (round_nearest_even_bounds p k ltac:(lia)) as Hrne.
  set (X := 2 ^ k) in *. set (Y := 2 ^ (52 - k)) in *.
  set (n := (133 * w + 99) / 100).
  assert (Hn : 100 * n <= 133 * w + 99 < 100 * n + 100).
  { unfold n. pose proof (Z.div_mod (133 * w + 99) 100 ltac:(lia)).
    pose proof (Z.mod_pos_bound (133 * w + 99) 100 ltac:(lia)). lia. }
  clearbody n.
  assert (HXw : X < 2 * w).
  { assert (X * 2 ^ 52 < w * 2 ^ 53) by (unfold p in Hlo; nia).
    change (2 ^ 53) with (2 * 2 ^ 52) in H. nia. }
  assert (Hp : 100 * p = 133 * w * 2 ^ 52 + 32 * w) by (unfold p; nia).
  apply ceil_div_unique; [exact HY|].
  destruct (Z.eq_dec (133 * w) (100 * n)) as [Hexact | Hfrac].
  - (* the exact product is just above the integer [n] *)
    assert (Hq : Float64.round_nearest_even p k = n * Y).
    { assert (Hj : w = 100 * (w / 100)).
      { pose proof (Z.div_mod w 100 ltac:(lia)).
        pose proof (Z.mod_pos_bound w 100 ltac:(lia)). lia. }
      set (j := w / 100) in *.
      assert (Hnj : n = 133 * j) by lia.
      assert (Hpj : p = X * (n * Y) + 32 * j).
      { replace (X * (n * Y)) with (n * (X * Y)) by ring. rewrite HXY. lia. }
      assert (Hjx : 2 * (32 * j) < X).
      { change (2 ^ 53) with (2 * 2 ^ 52) in Hhi. nia. }
      assert (Hj0 : 0 <= 32 * j) by lia.
      assert (Hmod : p mod X = 32 * j).
      { symmetry. apply Z.mod_unique with (q := n * Y); lia. }
      assert (Hdiv : p / X = n * Y).
      { symmetry. apply Z.div_unique with (r := 32 * j); lia. }
      rewrite round_nearest_even_down; fold X; lia. }
    rewrite Hq. nia.
  - set (A := Float64.round_nearest_even p k * X) in *.
    assert (Hup : A <= n * 2 ^ 52) by lia.
    assert (Hdn : (n - 1) * 2 ^ 52 < A) by lia.
    rewrite <- HXY in Hup, Hdn. unfold A in *. nia.
Qed.

(** The bound is not far from where doubles give out: at 249,062,821,682,097
    words, more than any string can hold, the rounded product has another
    ceiling than the exact one. *)
Lemma mul_1_33_ceil_breaks_far_out :
  let w := 249062821682097 in
  Float64.to_spec_float (Float64.mul_1_33 w) = Float64.mul_1_33_reference w
  /\ Float64.ceil (Float64.mul_1_33 w) <> (133 * w + 99) / 100.
Proof. vm_compute. split; [reflexivity | discriminate]. Qed.

Lemma split_ws_length (s : string) :
  (1 <= List.length (JS.split_ws s) <= String.length s + 1)%nat.
Proof.
  induction s as [|c s IH]; simpl.
  - lia.
  - destruct (JS.is_space c).
    + destruct (JS.starts_with_space s); simpl; lia.
    + destruct (JS.split_ws s) as [|p ps]; simpl in *; lia.
Qed.

Lemma wordCount_bounds (text : string) :
  1 <= wordCount text <= JS.len text + 1.
Proof.
  unfold wordCount, JS.len. pose proof (split_ws_length text). lia.
Qed.

Lemma words_from_inside (s : string) :
  s <> EmptyString ->
  (words_from false s + (if JS.starts_with_space s then 1 else 0)
   = 1 + words_from true s)%nat.
Proof.
  destruct s as [|c r]; [congruence|]. intros _.
  cbn [words_from JS.starts_with_space]. destruct (JS.is_space c); lia.
Qed.

Lemma split_ws_counts (s : string) :
  s <> EmptyString ->
  List.length (JS.split_ws s)
  = (count_words s + (if JS.starts_with_space s then 1 else 0)
     + (if ends_with_space s then 1 else 0))%nat.
Proof.
  unfold count_words.
  induction s as [|c r IH]; [congruence|]. intros _.
  destruct r as [|d r'].
  - cbn. destruct (JS.is_space c); reflexivity.
  - specialize (IH ltac:(discriminate)).
    pose proof (words_from_inside (String d r') ltac:(discriminate)) as Hin.
    change (ends_with_space (String c (String d r')))
      with (ends_with_space (String d r')).
    set (r := String d r') in *.
    cbn [JS.split_ws words_from JS.starts_with_space].
    destruct (JS.is_space c).
    + destruct (JS.starts_with_space r); cbn [List.length]; lia.
    + pose proof (split_ws_length r) as Hl.
      destruct (JS.split_ws r) as [|p ps]; cbn [List.length] in *; lia.
Qed.

Lemma wordCount_pieces (text : string) : wordCount text = pieces_of text.
Proof.
  unfold wordCount, pieces_of. destruct text as [|c r]; [reflexivity|].
  rewrite split_ws_counts by discriminate.
  destruct (JS.starts_with_space (String c r)), (ends_with_space (String c r)); lia.
Qed.

(** C8 (as amended) — for every text a string can hold (fewer than
    [2^44] code units), [estimateTokens] is the ceiling of 1.33 times the
    number of pieces of the text: the least integer [n] with
    [133 * pieces <= 100 * n], where the pieces are one for the empty
    text and otherwise the words, one more for white space at the start
    and one more for white space at the end.  So for a text that is not
    empty and has no white space at either end the estimate is the
    ceiling of 1.33 times its number of words.  The estimate is a
    function of the text alone. *)
Theorem estimateTokens_of_words (text : string) :
  JS.len text < 2 ^ 44 ->
  estimateTokens text = (133 * pieces_of text + 99) / 100
  /\ 100 * (estimateTokens text - 1) < 133 * pieces_of text
     <= 100 * estimateTokens text
  /\ (text <> EmptyString ->
      JS.starts_with_space text = false ->
      ends_with_space text = false ->
      estimateTokens text = (133 * Z.of_nat (count_words text) + 99) / 100
      /\ 100 * (estimateTokens text - 1) < 133 * Z.of_nat (count_words text)
         <= 100 * estimateTokens text).
Proof.
  intros Hlen. pose proof (wordCount_bounds text) as Hw.
  assert (E : estimateTokens text = (133 * pieces_of text + 99) / 100).
  { unfold estimateTokens. rewrite <- wordCount_pieces.
    apply mul_1_33_ceil. lia. }
  assert (B : 100 * (estimateTokens text - 1) < 133 * pieces_of text
              <= 100 * estimateTokens text).
  { rewrite E.
    pose proof (Z.div_mod (133 * pieces_of text + 99) 100 ltac:(lia)).
    pose proof (Z.mod_pos_bound (133 * pieces_of text + 99) 100 ltac:(lia)).
    lia. }
  split; [exact E|]. split; [exact B|].
  intros Hne Hstart Hend.
  assert (P : pieces_of text = Z.of_nat (count_words text)).
  { unfold pieces_of. destruct text as [|c r]; [congruence|].
    rewrite Hstart, Hend. lia. }
  rewrite <- P. split; assumption.
Qed.

Lemma estimateTokens_of_words_witness :
  JS.len "It was the best of times, it was the worst of times" < 2 ^ 44
  /\ count_words "It was the best of times, it was the worst of times" = 12%nat
  /\ estimateTokens "It was the best of times, it was the worst of times" = 16.
Proof.
  assert (H : JS.len "It was the best of times, it was the worst of times"
              < 2 ^ 44) by (vm_compute; reflexivity).
  split; [exact H|]. split; [vm_compute; reflexivity|].
  destruct (estimateTokens_of_words
              "It was the best of times, it was the worst of times" H)
    as (_ & _ & Hwords).
  destruct Hwords as [E _];
    [discriminate | vm_compute; reflexivity | vm_compute; reflexivity |].
  rewrite E. vm_compute. reflexivity.
Defined.

(** C8 (as stated) fails: the empty text has no word and the text
    [" a "] has one, yet their estimates are 2 and 4, the ceilings of
    1.33 and of 3.99, where the ceilings of 1.33 times the number of
    words are 0 and 2. *)
Lemma estimate_counts_more_than_words :
  count_words EmptyString = 0%nat
  /\ estimateTokens EmptyString = 2
  /\ estimateTokens EmptyString
     <> (133 * Z.of_nat (count_words EmptyString) + 99) / 100
  /\ count_words " a " = 1%nat
  /\ estimateTokens " a " = 4
  /\ estimateTokens " a " <> (133 * Z.of_nat (count_words " a ") + 99) / 100.
Proof. vm_compute. repeat split; try reflexivity; discriminate. Qed.

(** ** Parsing the response *)





(** What the scan does at a position outside a match. *)
Lemma strip_fences_from_0 (c : ascii) (r : string) :
  JS.strip_fences_from 0 (String c r)
  = if String.prefix "```json" (String c r) then JS.strip_fences_from 6 r
    else if String.prefix "```" (String c r) then JS.strip_fences_from 2 r
    else String c (JS.strip_fences_from 0 r).
Proof. reflexivity. Qed.









(** * Further properties *)

(** ** S3 locations *)

Lemma substring_whole (s : string) : String.substring 0 (String.length s) s = s.
Proof. induction s as [|c s IH]; simpl; [reflexivity | f_equal; exact IH]. Qed.

Lemma slice_from_scheme (rest : string) : JS.slice_from ("s3://" ++ rest) 5 = rest.
Proof. unfold JS.slice_from. simpl. rewrite Nat.sub_0_r. apply substring_whole. Qed.

Lemma prefix_split (p s : string) :
  String.prefix p s = true -> exists rest, s = p ++ rest.
Proof.
  revert s. induction p as [|x p IH]; intros s H.
  - exists s. reflexivity.
  - destruct s as [|y s]; [discriminate|]. cbn [String.prefix] in H.
    destruct (ascii_dec x y) as [-> | _]; [|discriminate].
    destruct (IH s H) as [rest ->]. exists rest. reflexivity.
Qed.

Lemma split_on_clean (sep : ascii) (b : string) :
  has_char sep b = false -> JS.split_on sep b = (b, []).
Proof.
  induction b as [|c b IH]; intros H; [reflexivity|].
  cbn [has_char] in H. apply orb_false_iff in H. destruct H as [Hc Hb].
  cbn [JS.split_on]. rewrite (IH Hb), Hc. reflexivity.
Qed.

Lemma split_on_app (sep : ascii) (b k : string) :
  has_char sep b = false ->
  JS.split_on sep (b ++ String sep k)
  = (b, fst (JS.split_on sep k) :: snd (JS.split_on sep k)).
Proof.
  induction b as [|c b IH]; intros H.
  - cbn [append JS.split_on]. destruct (JS.split_on sep k) as [p ps].
    rewrite Ascii.eqb_refl. reflexivity.
  - cbn [has_char] in H. apply orb_false_iff in H. destruct H as [Hc Hb].
    cbn [append JS.split_on]. rewrite (IH Hb), Hc. reflexivity.
Qed.

(** [split] and [join] on the same separator undo each other. *)
Lemma split_on_join (sep : ascii) (s : string) :
  String.concat (String sep EmptyString)
                (fst (JS.split_on sep s) :: snd (JS.split_on sep s)) = s.
Proof.
  induction s as [|c s IH]; [reflexivity|].
  cbn [JS.split_on]. destruct (JS.split_on sep s) as [p ps].
  cbn [fst snd] in *. destruct (c =? sep)%char eqn:Hc.
  - apply Ascii.eqb_eq in Hc. subst c.
    cbn [fst snd]. change (String.concat (String sep EmptyString) (EmptyString :: p :: ps))
      with (String sep (String.concat (String sep EmptyString) (p :: ps))).
    rewrite IH. reflexivity.
  - cbn [fst snd]. destruct ps as [|q ps]; cbn [String.concat append] in *;
      f_equal; exact IH.
Qed.

Lemma split_on_first_clean (sep : ascii) (s : string) :
  has_char sep (fst (JS.split_on sep s)) = false.
Proof.
  induction s as [|c s IH]; [reflexivity|].
  cbn [JS.split_on]. destruct (JS.split_on sep s) as [p ps]. cbn [fst] in *.
  destruct (c =? sep)%char eqn:Hc; cbn [fst has_char]; [reflexivity|].
  rewrite Hc, IH. reflexivity.
Qed.

(** X1 — a URI put together as [s3://<bucket>/<key>] from a bucket name
    without a slash parses back into that bucket and that key, whatever
    slashes the key holds; without a key part the key is empty. *)
Theorem parseS3Uri_of_location (bucket key : string) :
  has_char "/" bucket = false ->
  parseS3Uri ("s3://" ++ bucket ++ "/" ++ key) = ok (mkLocation bucket key)
  /\ parseS3Uri ("s3://" ++ bucket) = ok (mkLocation bucket EmptyString).
Proof.
  intros Hb. unfold parseS3Uri. split.
  - change (String.prefix "s3://" ("s3://" ++ bucket ++ "/" ++ key))
      with (String.prefix EmptyString (bucket ++ "/" ++ key)).
    replace (String.prefix EmptyString (bucket ++ "/" ++ key)) with true
      by (destruct (bucket ++ "/" ++ key); reflexivity).
    cbn [negb]. rewrite slice_from_scheme.
    change (bucket ++ "/" ++ key) with (bucket ++ String "/" key).
    rewrite (split_on_app "/" bucket key Hb).
    rewrite (split_on_join "/" key). reflexivity.
  - change (String.prefix "s3://" ("s3://" ++ bucket))
      with (String.prefix EmptyString bucket).
    replace (String.prefix EmptyString bucket) with true
      by (destruct bucket; reflexivity).
    cbn [negb]. rewrite slice_from_scheme, (split_on_clean "/" bucket Hb).
    reflexivity.
Qed.

Lemma parseS3Uri_of_location_witness :
  has_char "/" "books-chunks" = false
  /\ parseS3Uri "s3://books-chunks/chunks/42_ab-cd.json"
     = ok (mkLocation "books-chunks" "chunks/42_ab-cd.json").
Proof.
  assert (H : has_char "/" "books-chunks" = false) by reflexivity.
  split; [exact H|].
  exact (proj1 (parseS3Uri_of_location "books-chunks" "chunks/42_ab-cd.json" H)).
Defined.

(** X2 — [parseS3Uri] throws ["Invalid S3 URI: ..."] exactly on the
    strings that do not start with [s3://]; on the others it returns a
    bucket without a slash and a key from which the URI can be put
    together again (the key is empty when no slash follows the bucket). *)
Theorem parseS3Uri_cases (s3Uri : string) :
  (String.prefix "s3://" s3Uri = false
   /\ parseS3Uri s3Uri = throw (Error ("Invalid S3 URI: " ++ s3Uri)))
  \/ (exists loc,
        parseS3Uri s3Uri = ok loc
        /\ has_char "/" (Bucket loc) = false
        /\ (s3Uri = "s3://" ++ Bucket loc ++ "/" ++ Key loc
            \/ (Key loc = EmptyString /\ s3Uri = "s3://" ++ Bucket loc))).
Proof.
  unfold parseS3Uri. destruct (String.prefix "s3://" s3Uri) eqn:Hp; cbn [negb].
  - right. destruct (prefix_split _ _ Hp) as [rest ->].
    rewrite slice_from_scheme.
    pose proof (split_on_join "/" rest) as Hj.
    pose proof (split_on_first_clean "/" rest) as Hc.
    destruct (JS.split_on "/" rest) as [first parts]. cbn [fst snd] in *.
    eexists. split; [reflexivity|]. cbn [Bucket Key]. split; [exact Hc|].
    destruct parts as [|q parts].
    + right. cbn [String.concat] in *. subst rest. split; reflexivity.
    + left. rewrite <- Hj at 1. reflexivity.
  - left. split; reflexivity.
Qed.

(** ** What the structural pass returns *)

Section StructuralShape.

Variable text : string.

(** The loop entered with [lastIndex] on the next marker. *)
Lemma loop_on_match_chunks (n : nat) :
  forall ms cs k m rest,
    (List.length ms <= n)%nat -> ms = m :: rest ->
    marks text m ms -> (0 < m)%nat ->
    Structural.with_suffix text
      (Structural.chapter_loop text (Structural.mkScan cs k m) ms)
    = (cs ++ chapters_from text (S k) false ms)%list.
Proof.
  induction n as [|n IH]; intros ms cs k m rest Hn -> Hmarks Hpos;
    [simpl in Hn; lia|].
  cbn [marks] in Hmarks. destruct Hmarks as (_ & Hm & Hrest).
  cbn [Structural.chapter_loop]. unfold Structural.chapter_step at 1.
  cbn [Structural.lastIndex Structural.sc_chunks Structural.chapterNumber].
  rewrite Nat.ltb_irrefl.
  destruct rest as [|m' rest'].
  - cbn [Structural.chapter_loop chapters_from]. unfold Structural.with_suffix.
    cbn [Structural.lastIndex Structural.sc_chunks Structural.chapterNumber].
    destruct Hm as (c & Hget & Hc).
    pose proof (get_lt text m c Hget) as Hlt.
    apply Nat.ltb_lt in Hlt. rewrite Hlt.
    unfold Structural.push_if_truthy.
    rewrite slice_from_truthy by (exists c; split; assumption).
    reflexivity.
  - cbn [marks] in Hrest. destruct Hrest as (Hlt & Hm' & Hrest').
    cbn [Structural.chapter_loop]. unfold Structural.chapter_step at 1.
    cbn [Structural.lastIndex Structural.sc_chunks Structural.chapterNumber].
    assert (Hlt' : (m <? m')%nat = true) by (apply Nat.ltb_lt; lia).
    assert (Hpos' : (0 <? m)%nat = true) by (apply Nat.ltb_lt; lia).
    rewrite Hlt', Hpos'.
    unfold Structural.push_if_truthy at 1.
    rewrite slice_truthy by (assumption || lia).
    change (S (S k) - 1)%nat with (S k - 0)%nat. rewrite Nat.sub_0_r.
    destruct rest' as [|m'' rest''].
    + cbn [hd_error Structural.chapter_loop chapters_from negb].
      unfold Structural.with_suffix.
      cbn [Structural.lastIndex Structural.sc_chunks].
      rewrite Nat.ltb_irrefl, <- app_assoc. reflexivity.
    + cbn [hd_error]. cbn [marks] in Hrest'.
      destruct Hrest' as (H1 & H2 & H3).
      rewrite (IH (m'' :: rest'') _ _ m'' rest'').
      * rewrite <- !app_assoc. reflexivity.
      * simpl in *. lia.
      * reflexivity.
      * cbn [marks]. split; [lia|]. split; assumption.
      * lia.
Qed.

(** The loop entered with [lastIndex = 0] in front of a marker that is
    not at the start of the text. *)
Lemma loop_from_start_chunks (cs : list Chunk) (k m : nat) (rest : list nat) :
  marks text 0 (m :: rest) -> (0 < m)%nat ->
  Structural.with_suffix text
    (Structural.chapter_loop text (Structural.mkScan cs k 0) (m :: rest))
  = (cs ++ chapters_from text (S k) true (m :: rest))%list.
Proof.
  intros Hmarks Hpos. cbn [marks] in Hmarks. destruct Hmarks as (_ & Hm & Hrest).
  cbn [Structural.chapter_loop]. unfold Structural.chapter_step at 1.
  cbn [Structural.lastIndex Structural.sc_chunks Structural.chapterNumber].
  assert (H0 : (0 <? m)%nat = true) by (apply Nat.ltb_lt; lia).
  rewrite H0, Nat.ltb_irrefl.
  destruct rest as [|m' rest'].
  - cbn [hd_error Structural.chapter_loop chapters_from].
    unfold Structural.with_suffix.
    cbn [Structural.lastIndex Structural.sc_chunks].
    rewrite Nat.ltb_irrefl. reflexivity.
  - cbn [hd_error chapters_from negb].
    cbn [marks] in Hrest. destruct Hrest as (H1 & H2 & H3).
    rewrite (loop_on_match_chunks (List.length (m' :: rest')) (m' :: rest')
               _ _ m' rest').
    + rewrite <- app_assoc. reflexivity.
    + lia.
    + reflexivity.
    + cbn [marks]. split; [lia|]. split; assumption.
    + lia.
Qed.

End StructuralShape.

Lemma structural_chunks_shape (text : string) (first : nat) (rest : list nat) :
  JS.matchAll_chapter text = first :: rest ->
  Structural.structural_chunks text
  = match first, rest with
    | O, [] => chapters_from text 1 false [0%nat]
    | O, _ :: _ => chapters_from text 2 true rest
    | S _, _ =>
        (Structural.prefix_chunks text first
         ++ chapters_from text 1 true (first :: rest))%list
    end.
Proof.
  intros E. pose proof (matchAll_chapter_marks text) as Hmarks.
  unfold Structural.structural_chunks. rewrite E in *.
  destruct first as [|f].
  - unfold Structural.prefix_chunks. cbn [Nat.ltb Nat.leb].
    cbn [Structural.chapter_loop]. unfold Structural.chapter_step at 1.
    cbn [Structural.lastIndex Structural.sc_chunks Structural.chapterNumber].
    cbn [Nat.ltb Nat.leb].
    cbn [marks] in Hmarks. destruct Hmarks as (_ & Hm & Hrest).
    destruct rest as [|m rest'].
    + cbn [Structural.chapter_loop chapters_from]. unfold Structural.with_suffix.
      cbn [Structural.lastIndex Structural.sc_chunks Structural.chapterNumber].
      destruct Hm as (c & Hget & Hc).
      pose proof (get_lt text 0 c Hget) as Hlt.
      apply Nat.ltb_lt in Hlt. rewrite Hlt.
      unfold Structural.push_if_truthy.
      rewrite slice_from_truthy by (exists c; split; assumption).
      reflexivity.
    + cbn [marks] in Hrest. destruct Hrest as (H1 & H2 & H3).
      rewrite loop_from_start_chunks.
      * reflexivity.
      * cbn [marks]. split; [lia|]. split; assumption.
      * lia.
  - rewrite loop_from_start_chunks; [reflexivity | exact Hmarks | lia].
Qed.

(** X3 — when the first marker is not at the start of the text, the
    structural pass returns the prefix chunk (if the text in front of
    the first marker is not blank) and then one chunk per marker: the
    text from the marker to the next marker, or to the end, trimmed,
    named [Chapter <n>.1] — except that the chunk of the last marker is
    named [Suffix <k+1>.1] when the number [k] of markers is even. *)
Theorem structural_chunks_behind_prefix (text : string) (first : nat)
    (rest : list nat) :
  JS.matchAll_chapter text = first :: rest -> (0 < first)%nat ->
  Structural.structural_chunks text
  = (Structural.prefix_chunks text first
     ++ chapters_from text 1 true (first :: rest))%list.
Proof.
  intros E Hpos. rewrite (structural_chunks_shape text first rest E).
  destruct first; [lia | reflexivity].
Qed.

Lemma structural_chunks_behind_prefix_witness :
  JS.matchAll_chapter "Intro. Chapter 1. One. chapter 2. Two."
    = [7%nat; 23%nat]
  /\ (0 < 7)%nat
  /\ Structural.structural_chunks "Intro. Chapter 1. One. chapter 2. Two."
     = [mkChunk "Prefix 1.1" "Intro.";
        mkChunk "Chapter 1.1" "Chapter 1. One.";
        mkChunk "Suffix 3.1" "chapter 2. Two."].
Proof.
  assert (E : JS.matchAll_chapter "Intro. Chapter 1. One. chapter 2. Two."
              = [7%nat; 23%nat]) by (vm_compute; reflexivity).
  assert (H : (0 < 7)%nat) by lia.
  split; [exact E|]. split; [exact H|].
  rewrite (structural_chunks_behind_prefix _ 7%nat [23%nat] E H).
  vm_compute. reflexivity.
Defined.

(** X4 — when the text starts with a marker and holds more of them, the
    structural pass returns one chunk per marker from the second on, the
    first of them named [Chapter 2.1]; there is no chunk for the text
    from the first marker to the second. *)
Theorem structural_chunks_marker_first (text : string) (second : nat)
    (rest : list nat) :
  JS.matchAll_chapter text = 0%nat :: second :: rest ->
  Structural.structural_chunks text
  = chapters_from text 2 true (second :: rest).
Proof.
  intros E. rewrite (structural_chunks_shape text 0%nat (second :: rest) E).
  reflexivity.
Qed.

Lemma structural_chunks_marker_first_witness :
  JS.matchAll_chapter "Chapter 1. One. Chapter 2. Two. Chapter 3. Three."
    = [0%nat; 16%nat; 32%nat]
  /\ Structural.structural_chunks
       "Chapter 1. One. Chapter 2. Two. Chapter 3. Three."
     = [mkChunk "Chapter 2.1" "Chapter 2. Two.";
        mkChunk "Suffix 4.1" "Chapter 3. Three."].
Proof.
  assert (E : JS.matchAll_chapter
                "Chapter 1. One. Chapter 2. Two. Chapter 3. Three."
              = [0%nat; 16%nat; 32%nat]) by (vm_compute; reflexivity).
  split; [exact E|].
  rewrite (structural_chunks_marker_first _ 16%nat [32%nat] E).
  vm_compute. reflexivity.
Defined.

(** *** Trimming twice *)

Lemma trimEnd_idem (s : string) : JS.trimEnd (JS.trimEnd s) = JS.trimEnd s.
Proof.
  induction s as [|c s IH]; [reflexivity|].
  cbn [JS.trimEnd]. destruct (JS.trimEnd s) as [|d r] eqn:E.
  - destruct (JS.is_space c) eqn:Hc; [reflexivity|].
    cbn [JS.trimEnd]. rewrite Hc. reflexivity.
  - cbn [JS.trimEnd]. cbn [JS.trimEnd] in IH.
    destruct (JS.trimEnd r) as [|d' r'] eqn:E'.
    + destruct (JS.is_space d); [discriminate|]. rewrite IH. reflexivity.
    + rewrite IH. reflexivity.
Qed.

Lemma trimStart_head (s : string) :
  JS.trimStart s = EmptyString
  \/ exists c r, JS.trimStart s = String c r /\ JS.is_space c = false.
Proof.
  induction s as [|c s IH]; [left; reflexivity|].
  cbn [JS.trimStart]. destruct (JS.is_space c) eqn:Hc; [exact IH|].
  right. exists c, s. split; [reflexivity | exact Hc].
Qed.

Lemma trimEnd_keeps_head (c : ascii) (r : string) :
  JS.is_space c = false -> exists r', JS.trimEnd (String c r) = String c r'.
Proof.
  intros Hc. cbn [JS.trimEnd]. destruct (JS.trimEnd r).
  - rewrite Hc. eexists. reflexivity.
  - eexists. reflexivity.
Qed.

Lemma trim_idem (s : string) : JS.trim (JS.trim s) = JS.trim s.
Proof.
  unfold JS.trim. destruct (trimStart_head s) as [E | (c & r & E & Hc)]; rewrite E.
  - reflexivity.
  - destruct (trimEnd_keeps_head c r Hc) as [r' E']. rewrite E'.
    cbn [JS.trimStart]. rewrite Hc, <- E'. apply trimEnd_idem.
Qed.

(** *** Chunks of the structural pass are clean *)

Lemma chapters_from_clean (text : string) (ms : list nat) :
  forall n own lo, marks text lo ms ->
                   Forall clean_chunk (chapters_from text n own ms).
Proof.
  induction ms as [|m rest IH]; intros n own lo Hmarks; [constructor|].
  cbn [marks] in Hmarks. destruct Hmarks as (_ & Hm & Hrest).
  cbn [chapters_from]. destruct rest as [|m' rest'].
  - constructor; [|constructor]. split; cbn [chunkContent].
    + apply slice_from_truthy. exact Hm.
    + apply trim_idem.
  - constructor.
    + split; cbn [chunkContent].
      * apply slice_truthy; [exact Hm|]. cbn [marks] in Hrest. lia.
      * apply trim_idem.
    + apply (IH (S n) (negb own) (S m)). exact Hrest.
Qed.

Lemma prefix_chunks_clean (text : string) (first : nat) :
  Forall clean_chunk (Structural.prefix_chunks text first).
Proof.
  unfold Structural.prefix_chunks, Structural.push_if_truthy.
  destruct (0 <? first)%nat; [|constructor].
  destruct (JS.truthy (JS.trim (JS.slice text 0 first))) eqn:E; [|constructor].
  constructor; [|constructor]. split; cbn [chunkContent];
    [exact E | apply trim_idem].
Qed.

(** X5 — when the text holds at least one marker, every chunk of the
    structural pass (before size-bounding) is non-empty and has no white
    space at either end. *)
Theorem structural_chunks_clean (text : string) (c : Chunk) :
  JS.matchAll_chapter text <> [] ->
  In c (Structural.structural_chunks text) ->
  JS.truthy (chunkContent c) = true /\ JS.trim (chunkContent c) = chunkContent c.
Proof.
  intros Hne Hin.
  destruct (JS.matchAll_chapter text) as [|first rest] eqn:E; [congruence|].
  pose proof (matchAll_chapter_marks text) as Hmarks. rewrite E in Hmarks.
  rewrite (structural_chunks_shape text first rest E) in Hin.
  assert (Hall : Forall clean_chunk
            match first, rest with
            | O, [] => chapters_from text 1 false [0%nat]
            | O, _ :: _ => chapters_from text 2 true rest
            | S _, _ =>
                (Structural.prefix_chunks text first
                 ++ chapters_from text 1 true (first :: rest))%list
            end).
  { destruct first as [|f].
    - destruct rest as [|m rest'].
      + apply chapters_from_clean with (lo := 0%nat). exact Hmarks.
      + cbn [marks] in Hmarks. destruct Hmarks as (_ & _ & Hrest).
        apply chapters_from_clean with (lo := 1%nat). exact Hrest.
    - apply Forall_app. split; [apply prefix_chunks_clean|].
      apply chapters_from_clean with (lo := 0%nat). exact Hmarks. }
  rewrite Forall_forall in Hall. apply (Hall c Hin).
Qed.

Lemma structural_chunks_clean_witness :
  JS.matchAll_chapter "  Chapter 1.  " <> []
  /\ In (mkChunk "Chapter 1.1" "Chapter 1.")
        (Structural.structural_chunks "  Chapter 1.  ")
  /\ JS.truthy "Chapter 1." = true /\ JS.trim "Chapter 1." = "Chapter 1.".
Proof.
  assert (Hne : JS.matchAll_chapter "  Chapter 1.  " <> [])
    by (vm_compute; discriminate).
  assert (Hin : In (mkChunk "Chapter 1.1" "Chapter 1.")
                   (Structural.structural_chunks "  Chapter 1.  "))
    by (vm_compute; left; reflexivity).
  split; [exact Hne|]. split; [exact Hin|].
  exact (structural_chunks_clean "  Chapter 1.  "
           (mkChunk "Chapter 1.1" "Chapter 1.") Hne Hin).
Defined.

(** ** Names and contents of the grouped chunks *)

Lemma show_inj (a b : nat) : JS.show a = JS.show b -> a = b.
Proof.
  unfold JS.show. intros H.
  apply DecimalNat.Unsigned.to_uint_inj.
  apply (f_equal NilEmpty.uint_of_string) in H.
  rewrite !NilEmpty.usu in H. congruence.
Qed.

Lemma append_inj (p a b : string) : p ++ a = p ++ b -> a = b.
Proof.
  induction p as [|c p IH]; cbn [append]; intros H; [exact H|].
  injection H as H. apply IH. exact H.
Qed.

Lemma seq_snoc (a n : nat) : seq a (S n) = (seq a n ++ [(a + n)%nat])%list.
Proof. rewrite seq_S. reflexivity. Qed.

Section GroupingNames.

Variable name_of : nat -> string.
Variable cap : Z.

Lemma naming_inv_push (st : Grouping.state) (content group cur : string)
    (g : list string) :
  naming_inv name_of st ->
  naming_inv name_of
    (Grouping.mkState
       (Grouping.chunks st
        ++ [mkChunk (name_of (Grouping.sectionNumber st)) (JS.trim content)])%list
       cur (S (Grouping.sectionNumber st)) g).
Proof.
  intros [Hn Hs Ht]. constructor; cbn [Grouping.chunks Grouping.sectionNumber].
  - rewrite length_app. cbn [List.length]. rewrite Nat.add_1_r, seq_snoc.
    rewrite !map_app, Hn, Hs. reflexivity.
  - rewrite length_app. cbn [List.length]. lia.
  - apply Forall_app. split; [exact Ht|].
    constructor; [apply trim_idem | constructor].
Qed.

Lemma naming_inv_step (st : Grouping.state) (s : string) :
  naming_inv name_of st -> naming_inv name_of (Grouping.step name_of cap st s).
Proof.
  intros Hinv. unfold Grouping.step.
  destruct (_ || _).
  - destruct (cap <? _).
    + pose proof (naming_inv_push st (Grouping.currentChunk st) EmptyString
                    EmptyString (Grouping.sentenceGroup st ++ [s])%list Hinv)
        as [Hn Hs Ht].
      constructor; assumption.
    + destruct Hinv as [Hn Hs Ht]. constructor; assumption.
  - destruct Hinv as [Hn Hs Ht]. constructor; assumption.
Qed.

Lemma naming_inv_fold (ss : list string) (st : Grouping.state) :
  naming_inv name_of st ->
  naming_inv name_of (fold_left (Grouping.step name_of cap) ss st).
Proof.
  revert st. induction ss as [|s ss IH]; intros st Hinv; [exact Hinv|].
  apply IH. apply naming_inv_step. exact Hinv.
Qed.

Lemma run_names (ss : list string) :
  map chunkName (Grouping.run name_of cap ss)
  = map name_of (seq 1 (List.length (Grouping.run name_of cap ss)))
  /\ Forall (fun c => JS.trim (chunkContent c) = chunkContent c)
            (Grouping.run name_of cap ss).
Proof.
  unfold Grouping.run, Grouping.finish.
  assert (H0 : naming_inv name_of Grouping.init)
    by (constructor; [reflexivity | reflexivity | constructor]).
  pose proof (naming_inv_fold ss Grouping.init H0) as Hinv.
  set (st := fold_left (Grouping.step name_of cap) ss Grouping.init) in *.
  destruct (0 <? JS.len (Grouping.currentChunk st)).
  - pose proof (naming_inv_push st (Grouping.currentChunk st) EmptyString
                  EmptyString [] Hinv) as [Hn _ Ht].
    split; assumption.
  - destruct Hinv as [Hn _ Ht]. split; assumption.
Qed.

Lemma names_nodup (n : nat) :
  (forall a b, name_of a = name_of b -> a = b) ->
  NoDup (map name_of (seq 1 n)).
Proof.
  intros Hinj. generalize (seq_NoDup n 1). generalize (seq 1 n) as l.
  induction l as [|x l IH]; intros Hnd; [constructor|].
  inversion Hnd as [|y l' Hnotin Hrest]; subst. cbn [map]. constructor.
  - intros Hin. apply in_map_iff in Hin. destruct Hin as (z & Hz & Hin).
    apply Hinj in Hz. subst z. contradiction.
  - apply IH. exact Hrest.
Qed.

End GroupingNames.

(** X6 — the chunks of the flat variant are named [Section 1],
    [Section 2], ... in the order they come out, and those of the
    fallback [<baseName>.1], [<baseName>.2], ...; so no two chunks of one
    run share a name. *)
Theorem grouped_chunks_numbered (text baseName : string) (cap : Z) :
  (map chunkName (Flat.smartChunkText text)
   = map (fun n => "Section " ++ JS.show n)
         (seq 1 (List.length (Flat.smartChunkText text)))
   /\ NoDup (map chunkName (Flat.smartChunkText text)))
  /\ (map chunkName (Structural.fallbackChunking text baseName cap)
      = map (fun n => baseName ++ "." ++ JS.show n)
            (seq 1 (List.length (Structural.fallbackChunking text baseName cap)))
      /\ NoDup (map chunkName (Structural.fallbackChunking text baseName cap))).
Proof.
  split.
  - destruct (run_names Flat.section_name Flat.chunkSize (JS.sentences_of text))
      as [Hn _].
    fold (Flat.smartChunkText_sized Flat.chunkSize text) in Hn.
    fold (Flat.smartChunkText text) in Hn.
    split; [exact Hn|]. rewrite Hn. apply names_nodup.
    intros a b H. apply append_inj in H. apply show_inj. exact H.
  - destruct (run_names (fun n => baseName ++ "." ++ JS.show n) cap
                (JS.sentences_of text)) as [Hn _].
    fold (Structural.fallbackChunking text baseName cap) in Hn.
    split; [exact Hn|]. rewrite Hn. apply names_nodup.
    intros a b H. apply append_inj, append_inj in H. apply show_inj. exact H.
Qed.

(** X7 — every chunk of the flat variant, and every chunk of the
    fallback, has no white space at either end. *)
Theorem grouped_chunks_trimmed (text baseName : string) (cap : Z) :
  Forall (fun c => JS.trim (chunkContent c) = chunkContent c)
         (Flat.smartChunkText text)
  /\ Forall (fun c => JS.trim (chunkContent c) = chunkContent c)
            (Structural.fallbackChunking text baseName cap).
Proof.
  split.
  - apply (run_names Flat.section_name Flat.chunkSize (JS.sentences_of text)).
  - apply (run_names (fun n => baseName ++ "." ++ JS.show n) cap
             (JS.sentences_of text)).
Qed.

(** ** What the flat variant keeps of a text that fits *)

Lemma groups_of_four_short (tail : list string) :
  (List.length tail < 4)%nat -> groups_of_four tail = [].
Proof.
  destruct tail as [|a [|b [|c [|d tail]]]]; cbn [List.length]; intros H;
    try reflexivity. lia.
Qed.

Lemma groups_of_four_concat (gs : list (list string)) (tail : list string) :
  Forall (fun g => List.length g = 4%nat) gs ->
  (List.length tail < 4)%nat ->
  groups_of_four (List.concat gs ++ tail)%list = gs.
Proof.
  intros Hgs Htail. induction Hgs as [|g gs Hg _ IH].
  - apply groups_of_four_short. exact Htail.
  - destruct g as [|a [|b [|c [|d [|e g]]]]]; try discriminate.
    cbn [List.concat app groups_of_four]. rewrite IH. reflexivity.
Qed.

Lemma joined_snoc (gs : list (list string)) (g : list string) :
  joined (gs ++ [g])%list = joined gs ++ JS.join_sp g ++ " ".
Proof.
  induction gs as [|x gs IH]; cbn [app joined].
  - generalize (JS.join_sp g ++ " ") as s. intros s.
    induction s as [|c s IHs]; cbn [append]; [reflexivity | f_equal; exact IHs].
  - rewrite IH. symmetry. apply append_assoc.
Qed.

Lemma joined_len (gs : list (list string)) :
  gs <> [] -> 0 < JS.len (joined gs).
Proof.
  destruct gs as [|g gs]; [congruence|]. intros _. cbn [joined].
  rewrite !len_append. change (JS.len " ") with 1.
  pose proof (len_nonneg (JS.join_sp g)). pose proof (len_nonneg (joined gs)).
  lia.
Qed.

Section GroupingFitting.

Variable name_of : nat -> string.
Variable cap : Z.
Variable ss : list string.
Hypothesis fits : weight ss <= cap.

Lemma fitting_inv_step (processed post : list string) (s : string)
    (st : Grouping.state) :
  ss = (processed ++ s :: post)%list ->
  fitting_inv processed st ->
  fitting_inv (processed ++ [s]) (Grouping.step name_of cap st s).
Proof.
  intros Hss [Huns (gs & Hproc & Hgs & Hcur) Hlen].
  pose proof (unsplit_inv_step name_of cap ss fits processed post s st Hss Huns)
    as Huns'.
  constructor; [exact Huns' | |].
  - destruct Huns as [_ _ Hroom].
    assert (Hbound : weight processed + JS.len s + 1 <= cap).
    { rewrite Hss in fits. rewrite weight_app in fits.
      change (weight (s :: post)) with (JS.len s + 1 + weight post) in fits.
      pose proof (weight_nonneg post). lia. }
    pose proof (weight_nonneg (Grouping.sentenceGroup st)) as Hwg.
    assert (Hglen : List.length (Grouping.sentenceGroup st ++ [s])%list
                    = S (List.length (Grouping.sentenceGroup st)))
      by (rewrite length_app; simpl; lia).
    assert (Hjoin : JS.len (JS.join_sp (Grouping.sentenceGroup st ++ [s])%list) + 1
                    = weight (Grouping.sentenceGroup st) + JS.len s + 1).
    { rewrite join_sp_len by (destruct (Grouping.sentenceGroup st); discriminate).
      rewrite weight_app. change (weight [s]) with (JS.len s + 1 + 0). lia. }
    unfold Grouping.step. rewrite Hglen.
    replace (cap <? JS.len (Grouping.currentChunk st) + JS.len s) with false
      by (symmetry; apply Z.ltb_ge; lia).
    rewrite orb_false_r.
    destruct (4 <=? Z.of_nat (S (List.length (Grouping.sentenceGroup st))))
      eqn:H4.
    + apply Z.leb_le in H4.
      replace (cap <? JS.len (Grouping.currentChunk st)
                      + JS.len (JS.join_sp (Grouping.sentenceGroup st ++ [s])%list))
        with false by (symmetry; apply Z.ltb_ge; lia).
      cbn [Grouping.currentChunk Grouping.sentenceGroup Grouping.chunks
           Grouping.sectionNumber].
      exists (gs ++ [Grouping.sentenceGroup st ++ [s]])%list.
      split; [|split].
      * rewrite concat_app. cbn [List.concat]. rewrite !app_nil_r, Hproc.
        rewrite <- app_assoc. reflexivity.
      * apply Forall_app. split; [exact Hgs|]. constructor; [|constructor].
        rewrite Hglen. lia.
      * rewrite joined_snoc, Hcur. reflexivity.
    + cbn [Grouping.currentChunk Grouping.sentenceGroup]. exists gs.
      split; [|split]; try assumption.
      rewrite Hproc, <- app_assoc. reflexivity.
  - unfold Grouping.step.
    destruct (_ || _) eqn:Hflush.
    + cbn [Grouping.sentenceGroup]. simpl. lia.
    + cbn [Grouping.sentenceGroup]. apply orb_false_iff in Hflush.
      destruct Hflush as [H4 _]. apply Z.leb_gt in H4. lia.
Qed.

Lemma fitting_inv_fold (post processed : list string) (st : Grouping.state) :
  ss = (processed ++ post)%list ->
  fitting_inv processed st ->
  fitting_inv ss (fold_left (Grouping.step name_of cap) post st).
Proof.
  revert processed st.
  induction post as [|s post IH]; intros processed st Hss Hinv; simpl.
  - rewrite app_nil_r in Hss. subst. exact Hinv.
  - apply (IH (processed ++ [s])%list).
    + rewrite <- app_assoc. exact Hss.
    + apply fitting_inv_step with (post := post); assumption.
Qed.

Lemma run_fitting :
  Grouping.run name_of cap ss
  = match groups_of_four ss with
    | [] => []
    | gs => [mkChunk (name_of 1) (JS.trim (joined gs))]
    end.
Proof.
  assert (H0 : fitting_inv [] Grouping.init).
  { constructor.
    - constructor; simpl; try reflexivity; lia.
    - exists []. repeat split; constructor.
    - simpl. lia. }
  pose proof (fitting_inv_fold ss [] Grouping.init eq_refl H0)
    as [[Hch Hsec _] (gs & Hproc & Hgs & Hcur) Hlen].
  unfold Grouping.run, Grouping.finish.
  set (st := fold_left (Grouping.step name_of cap) ss Grouping.init) in *.
  rewrite Hproc at 1. rewrite (groups_of_four_concat gs _ Hgs Hlen).
  rewrite Hch, Hsec, Hcur. destruct gs as [|g gs].
  - reflexivity.
  - pose proof (joined_len (g :: gs) ltac:(discriminate)) as Hpos.
    apply Z.ltb_lt in Hpos. rewrite Hpos. reflexivity.
Qed.

End GroupingFitting.

(** X8 — when the text with one more blank per sentence fits the cap
    of 40,000, the flat variant returns the sentences taken four at a
    time, each group joined by blanks, as the one chunk [Section 1]; the
    sentences behind the last complete group of four are in no chunk, and
    a text of fewer than four sentences gives no chunk at all. *)
Theorem flat_text_that_fits (text : string) :
  JS.len text + Z.of_nat (List.length (JS.sentences_of text)) <= Flat.chunkSize ->
  Flat.smartChunkText text
  = match groups_of_four (JS.sentences_of text) with
    | [] => []
    | gs => [mkChunk "Section 1" (JS.trim (joined gs))]
    end
  /\ ((List.length (JS.sentences_of text) < 4)%nat ->
      Flat.smartChunkText text = []).
Proof.
  intros Hfit.
  assert (Hw : weight (JS.sentences_of text) <= Flat.chunkSize)
    by (pose proof (sentences_of_weight text); lia).
  pose proof (run_fitting Flat.section_name Flat.chunkSize
                (JS.sentences_of text) Hw) as Hrun.
  fold (Flat.smartChunkText_sized Flat.chunkSize text) in Hrun.
  fold (Flat.smartChunkText text) in Hrun.
  split; [exact Hrun|].
  intros Hshort. rewrite Hrun, groups_of_four_short by exact Hshort.
  reflexivity.
Qed.

Lemma flat_text_that_fits_witness :
  JS.len "One. Two. Three. Four. Five."
    + Z.of_nat (List.length (JS.sentences_of "One. Two. Three. Four. Five."))
    <= Flat.chunkSize
  /\ Flat.smartChunkText "One. Two. Three. Four. Five."
     = [mkChunk "Section 1" (JS.trim (joined [["One."; " Two."; " Three."; " Four."]]))].
Proof.
  assert (H : JS.len "One. Two. Three. Four. Five."
              + Z.of_nat (List.length
                            (JS.sentences_of "One. Two. Three. Four. Five."))
              <= Flat.chunkSize) by (vm_compute; discriminate).
  split; [exact H|].
  exact (proj1 (flat_text_that_fits "One. Two. Three. Four. Five." H)).
Defined.

(** ** The size-bounding pass on a text within the cap *)

Lemma substring_len (s : string) :
  forall a n, JS.len (String.substring a n s) <= JS.len s.
Proof.
  induction s as [|c s IH]; intros a n.
  - destruct a, n; cbn [String.substring]; unfold JS.len; simpl; lia.
  - destruct a as [|a].
    + destruct n as [|n]; cbn [String.substring].
      * rewrite len_empty. apply len_nonneg.
      * rewrite !len_String. specialize (IH 0%nat n). lia.
    + cbn [String.substring]. rewrite len_String. specialize (IH a n). lia.
Qed.

Lemma trimmed_slice_len (text : string) (a b : nat) :
  JS.len (JS.trim (JS.slice text a b)) <= JS.len text
  /\ JS.len (JS.trim (JS.slice_from text a)) <= JS.len text.
Proof.
  unfold JS.slice, JS.slice_from. split.
  - pose proof (trim_len (String.substring a (b - a) text)).
    pose proof (substring_len text a (b - a)). lia.
  - pose proof (trim_len (String.substring a (String.length text - a) text)).
    pose proof (substring_len text a (String.length text - a)). lia.
Qed.

Lemma chapters_from_len (text : string) (ms : list nat) :
  forall n own,
    Forall (fun c => JS.len (chunkContent c) <= JS.len text)
           (chapters_from text n own ms).
Proof.
  induction ms as [|m rest IH]; intros n own; [constructor|].
  cbn [chapters_from]. destruct rest as [|m' rest'].
  - constructor; [|constructor]. apply trimmed_slice_len. exact 0%nat.
  - constructor; [apply trimmed_slice_len | apply IH].
Qed.

Lemma structural_chunks_len (text : string) :
  Forall (fun c => JS.len (chunkContent c) <= JS.len text)
         (Structural.structural_chunks text).
Proof.
  destruct (JS.matchAll_chapter text) as [|first rest] eqn:E.
  - unfold Structural.structural_chunks. rewrite E.
    constructor; [cbn [chunkContent]; lia | constructor].
  - rewrite (structural_chunks_shape text first rest E).
    destruct first as [|f]; [destruct rest|]; try apply chapters_from_len.
    apply Forall_app. split; [|apply chapters_from_len].
    unfold Structural.prefix_chunks, Structural.push_if_truthy.
    destruct (0 <? S f)%nat; [|constructor].
    destruct (JS.truthy _); [|constructor].
    constructor; [apply trimmed_slice_len | constructor].
Qed.

Lemma bound_chunks_within (size : Z) (cs : list Chunk) :
  Forall (fun c => JS.len (chunkContent c) <= size) cs ->
  Structural.bound_chunks size cs = cs.
Proof.
  unfold Structural.bound_chunks.
  induction 1 as [|c cs Hc _ IH]; [reflexivity|].
  cbn [flat_map]. rewrite IH.
  apply Z.ltb_ge in Hc. rewrite Hc. reflexivity.
Qed.

(** X9 — on a text of at most 100,000 characters the size-bounding
    pass of the structural variant changes nothing: the chunks returned
    are those of the structural pass, under their own names. *)
Theorem small_text_not_split (text : string) :
  JS.len text <= Structural.chunkSize ->
  Structural.smartChunkText text = Structural.structural_chunks text.
Proof.
  intros Hlen. unfold Structural.smartChunkText, Structural.smartChunkText_sized.
  apply bound_chunks_within.
  eapply Forall_impl; [|apply structural_chunks_len].
  cbn beta. intros c Hc. lia.
Qed.

Lemma small_text_not_split_witness :
  JS.len "Intro. Chapter 1. One. chapter 2. Two." <= Structural.chunkSize
  /\ Structural.smartChunkText "Intro. Chapter 1. One. chapter 2. Two."
     = Structural.structural_chunks "Intro. Chapter 1. One. chapter 2. Two.".
Proof.
  assert (H : JS.len "Intro. Chapter 1. One. chapter 2. Two."
              <= Structural.chunkSize) by (vm_compute; discriminate).
  split; [exact H|].
  exact (small_text_not_split "Intro. Chapter 1. One. chapter 2. Two." H).
Defined.

(** ** More on the token estimate *)

Lemma mul_1_33_nonneg (w : Z) : 0 <= w -> 0 <= Float64.ceil (Float64.mul_1_33 w).
Proof.
  intros Hw. unfold Float64.mul_1_33.
  assert (Hp : 0 <= w * Float64.mant_1_33)
    by (unfold Float64.mant_1_33; lia).
  set (p := w * Float64.mant_1_33) in *.
  assert (Hceil : forall m e, 0 <= m -> 0 <= Float64.ceil (m, e)).
  { intros m e Hm. unfold Float64.ceil. destruct (0 <=? e) eqn:He.
    - apply Z.leb_le in He. apply Z.mul_nonneg_nonneg; [exact Hm|].
      apply Z.pow_nonneg. lia.
    - apply Z.leb_gt in He.
      assert (0 < 2 ^ (- e)) by (apply Z.pow_pos_nonneg; lia).
      assert (- m / 2 ^ (- e) <= 0); [|lia].
      apply Z.div_le_upper_bound; lia. }
  destruct (Z.log2 p - 52 <=? 0) eqn:Hk; [apply Hceil; exact Hp|].
  apply Z.leb_gt in Hk. apply Hceil. unfold Float64.round_nearest_even.
  assert (HX : 0 < 2 ^ (Z.log2 p - 52)) by (apply Z.pow_pos_nonneg; lia).
  assert (Hq : 0 <= p / 2 ^ (Z.log2 p - 52)) by (apply Z.div_pos; lia).
  destruct (_ <? _); [exact Hq|].
  destruct (_ <? _); [lia|]. destruct (Z.even _); lia.
Qed.

Lemma estimateTokens_nonneg (text : string) : 0 <= estimateTokens text.
Proof.
  unfold estimateTokens. apply mul_1_33_nonneg.
  pose proof (wordCount_bounds text). lia.
Qed.

Lemma split_ws_after_space (s : string) :
  JS.starts_with_space s = true -> (2 <= List.length (JS.split_ws s))%nat.
Proof.
  induction s as [|c s IH]; [discriminate|].
  cbn [JS.starts_with_space]. intros Hc. cbn [JS.split_ws]. rewrite Hc.
  destruct (JS.starts_with_space s) eqn:Hs.
  - apply IH. reflexivity.
  - pose proof (split_ws_length s). cbn [List.length]. lia.
Qed.

(** Two pieces take at least one separating character. *)
Lemma split_ws_half (s : string) :
  (2 * List.length (JS.split_ws s)
   <= String.length s + (if JS.starts_with_space s then 3 else 2))%nat.
Proof.
  induction s as [|c s IH]; [simpl; lia|].
  cbn [JS.split_ws JS.starts_with_space String.length].
  destruct (JS.is_space c).
  - destruct (JS.starts_with_space s); cbn [List.length]; lia.
  - destruct (JS.split_ws s) as [|p ps]; cbn [List.length] in *;
      destruct (JS.starts_with_space s); lia.
Qed.

Lemma wordCount_half (text : string) : 2 * wordCount text <= JS.len text + 3.
Proof.
  unfold wordCount, JS.len. pose proof (split_ws_half text).
  destruct (JS.starts_with_space text); lia.
Qed.

Lemma starts_with_space_app (a b : string) :
  a <> EmptyString ->
  JS.starts_with_space (a ++ b) = JS.starts_with_space a.
Proof. destruct a; [congruence | reflexivity]. Qed.

Lemma split_ws_app (a b : string) :
  (List.length (JS.split_ws a) <= List.length (JS.split_ws (a ++ b)))%nat.
Proof.
  induction a as [|c a IH].
  - cbn [append]. pose proof (split_ws_length b). simpl. lia.
  - cbn [append JS.split_ws]. destruct (JS.is_space c).
    + destruct a as [|d a].
      * cbn [append JS.starts_with_space JS.split_ws List.length].
        destruct (JS.starts_with_space b) eqn:Hb.
        -- apply split_ws_after_space. exact Hb.
        -- pose proof (split_ws_length b). cbn [List.length]. lia.
      * rewrite starts_with_space_app by discriminate.
        destruct (JS.starts_with_space (String d a)); cbn [List.length]; lia.
    + destruct (JS.split_ws a) as [|p ps], (JS.split_ws (a ++ b)) as [|q qs];
        cbn [List.length] in *; lia.
Qed.

(** X10 — the estimate of a text is at least 2 (the empty text counts
    one word) and at most 0.665 tokens per character plus 3; so a chunk
    within the flat cap of 40,000 characters is estimated at no more than
    26,602 tokens, below the budget of a minute. *)
Theorem estimateTokens_range (text : string) :
  JS.len text < 2 ^ 44 ->
  2 <= estimateTokens text
  /\ 200 * estimateTokens text <= 133 * JS.len text + 597
  /\ (JS.len text <= Flat.chunkSize ->
      estimateTokens text <= 26602 /\ 26602 < MAX_TOKENS_PER_MINUTE).
Proof.
  intros Hlen. pose proof (wordCount_bounds text) as Hw.
  pose proof (wordCount_half text) as Hh.
  assert (E : estimateTokens text = (133 * wordCount text + 99) / 100)
    by (unfold estimateTokens; apply mul_1_33_ceil; lia).
  pose proof (Z.div_mod (133 * wordCount text + 99) 100 ltac:(lia)) as Hdm.
  pose proof (Z.mod_pos_bound (133 * wordCount text + 99) 100 ltac:(lia)) as Hm.
  rewrite <- E in Hdm.
  split; [lia|]. split; [lia|].
  unfold Flat.chunkSize, MAX_TOKENS_PER_MINUTE. intros Hcap. lia.
Qed.

Lemma estimateTokens_range_witness :
  JS.len EmptyString < 2 ^ 44 /\ 2 <= estimateTokens EmptyString.
Proof.
  assert (H : JS.len EmptyString < 2 ^ 44) by (vm_compute; reflexivity).
  split; [exact H|].
  exact (proj1 (estimateTokens_range EmptyString H)).
Defined.

(** X11 — text put behind a text never lowers its estimate. *)
Theorem estimateTokens_monotone (a b : string) :
  JS.len (a ++ b) < 2 ^ 44 ->
  estimateTokens a <= estimateTokens (a ++ b).
Proof.
  intros Hlen. rewrite len_append in Hlen.
  pose proof (len_nonneg a). pose proof (len_nonneg b).
  pose proof (wordCount_bounds a) as Ha.
  pose proof (wordCount_bounds (a ++ b)) as Hab.
  rewrite len_append in Hab.
  unfold estimateTokens. rewrite !mul_1_33_ceil by lia.
  apply Z.div_le_mono; [lia|].
  assert (wordCount a <= wordCount (a ++ b)); [|lia].
  unfold wordCount. pose proof (split_ws_app a b). lia.
Qed.

Lemma estimateTokens_monotone_witness :
  JS.len ("It was the best of times," ++ " it was the worst of times")
    < 2 ^ 44
  /\ estimateTokens "It was the best of times,"
     <= estimateTokens ("It was the best of times,"
                        ++ " it was the worst of times").
Proof.
  assert (H : JS.len ("It was the best of times,"
                      ++ " it was the worst of times") < 2 ^ 44)
    by (vm_compute; reflexivity).
  split; [exact H|].
  exact (estimateTokens_monotone "It was the best of times,"
           " it was the worst of times" H).
Defined.

(** ** The controller's loop: summaries, failures and the clock *)

Lemma history_length (st : limiter) :
  List.length (history st) = List.length (sent_requests st).
Proof. unfold history. rewrite length_map, length_rev. reflexivity. Qed.

Lemma process_summaries (parse : string -> option json) (srv : service)
    (i : nat) (chunk : Chunk) (st : limiter) :
  match snd (process parse srv i chunk st) with
  | None =>
      exists v, summary_of parse srv i = ok v
                /\ summaries (fst (process parse srv i chunk st))
                   = (summaries st ++ [v])%list
  | Some e =>
      summary_of parse srv i = throw e
      /\ summaries (fst (process parse srv i chunk st)) = summaries st
  end.
Proof.
  unfold process, summary_of.
  set (st1 := if _ <? _ then throttle st else st).
  assert (H1 : summaries st1 = summaries st)
    by (unfold st1; destruct (_ <? _); reflexivity).
  destruct (summarizeChunk parse (answer srv i)) as [v | e];
    cbn [fst snd summaries].
  - exists v. rewrite H1. split; reflexivity.
  - rewrite H1. split; reflexivity.
Qed.

Lemma loop_summaries (parse : string -> option json) (srv : service)
    (chunks : list Chunk) :
  forall i st,
    match snd (loop parse srv i chunks st) with
    | None =>
        map ok (summaries (fst (loop parse srv i chunks st)))
        = (map ok (summaries st)
           ++ map (summary_of parse srv) (seq i (List.length chunks)))%list
        /\ List.length (history (fst (loop parse srv i chunks st)))
           = (List.length (history st) + List.length chunks)%nat
    | Some e =>
        exists k,
          (k < List.length chunks)%nat
          /\ summary_of parse srv (i + k) = throw e
          /\ map ok (summaries (fst (loop parse srv i chunks st)))
             = (map ok (summaries st)
                ++ map (summary_of parse srv) (seq i k))%list
          /\ List.length (history (fst (loop parse srv i chunks st)))
             = (List.length (history st) + S k)%nat
    end.
Proof.
  induction chunks as [|chunk rest IH]; intros i st.
  - cbn [loop fst snd List.length seq map]. rewrite app_nil_r. split; [reflexivity | lia].
  - cbn [loop].
    pose proof (process_summaries parse srv i chunk st) as Hs.
    pose proof (process_history parse srv i chunk st) as Hh.
    destruct (process parse srv i chunk st) as [st' [e|]]; cbn [fst snd] in *.
    + destruct Hs as [He Hsum]. exists 0%nat. cbn [List.length seq map].
      rewrite Nat.add_0_r, app_nil_r, Hsum, Hh, length_app.
      repeat split; try assumption; cbn [List.length]; lia.
    + destruct Hs as (v & Hv & Hsum). specialize (IH (S i) st').
      destruct (snd (loop parse srv (S i) rest st')) as [e|].
      * destruct IH as (k & Hk & He & Hmap & Hlen). exists (S k).
        cbn [List.length seq map]. split; [lia|].
        split; [rewrite Nat.add_succ_r; exact He|].
        rewrite Hmap, Hlen, Hsum, Hh, map_app, length_app, <- app_assoc.
        cbn [map app List.length]. rewrite Hv. split; [reflexivity | lia].
      * destruct IH as [Hmap Hlen].
        cbn [List.length seq map].
        rewrite Hmap, Hlen, Hsum, Hh, map_app, length_app, <- app_assoc.
        cbn [map app List.length]. rewrite Hv. split; [reflexivity | lia].
Qed.

(** X12 — when no request fails, the controller returns one summary
    per chunk, in the order of the chunks: the [n]-th summary is what the
    [n]-th response parses to, and one request was sent per chunk. *)
Theorem one_summary_per_chunk (parse : string -> option json) (srv : service)
    (t0 : Z) (chunks : list Chunk) :
  snd (summarizeChunksWithRateLimit parse srv t0 chunks) = None ->
  map ok (summaries (fst (summarizeChunksWithRateLimit parse srv t0 chunks)))
  = map (summary_of parse srv) (seq 0 (List.length chunks))
  /\ List.length
       (history (fst (summarizeChunksWithRateLimit parse srv t0 chunks)))
     = List.length chunks.
Proof.
  unfold summarizeChunksWithRateLimit. intros Hnone.
  pose proof (loop_summaries parse srv chunks 0%nat (start t0)) as H.
  rewrite Hnone in H. exact H.
Qed.

Lemma one_summary_per_chunk_witness :
  snd (summarizeChunksWithRateLimit Json.parse slow_then_quick 0
         [mkChunk "Section 1" "a b"; mkChunk "Section 2" "c d"]) = None
  /\ List.length
       (history (fst (summarizeChunksWithRateLimit Json.parse slow_then_quick 0
                        [mkChunk "Section 1" "a b"; mkChunk "Section 2" "c d"])))
     = 2%nat.
Proof.
  assert (H : snd (summarizeChunksWithRateLimit Json.parse slow_then_quick 0
                     [mkChunk "Section 1" "a b"; mkChunk "Section 2" "c d"])
              = None) by (vm_compute; reflexivity).
  split; [exact H|].
  exact (proj2 (one_summary_per_chunk Json.parse slow_then_quick 0
                  [mkChunk "Section 1" "a b"; mkChunk "Section 2" "c d"] H)).
Defined.

(** X13 — when the controller throws, it throws the error of the first
    request that failed; the summaries of the chunks before it are the
    only ones made, and no request is sent for the chunks after it. *)
Theorem first_failure_ends_the_run (parse : string -> option json)
    (srv : service) (t0 : Z) (chunks : list Chunk) (e : exn) :
  snd (summarizeChunksWithRateLimit parse srv t0 chunks) = Some e ->
  exists k,
    (k < List.length chunks)%nat
    /\ summary_of parse srv k = throw e
    /\ map ok (summaries
                 (fst (summarizeChunksWithRateLimit parse srv t0 chunks)))
       = map (summary_of parse srv) (seq 0 k)
    /\ List.length
         (history (fst (summarizeChunksWithRateLimit parse srv t0 chunks)))
       = S k.
Proof.
  unfold summarizeChunksWithRateLimit. intros Hsome.
  pose proof (loop_summaries parse srv chunks 0%nat (start t0)) as H.
  rewrite Hsome in H. exact H.
Qed.

Lemma first_failure_ends_the_run_witness :
  snd (summarizeChunksWithRateLimit Json.parse refuses_second 0
         [mkChunk "Section 1" "a"; mkChunk "Section 2" "b";
          mkChunk "Section 3" "c"])
    = Some (AxiosError (Some 429))
  /\ exists k,
       (k < 3)%nat
       /\ summary_of Json.parse refuses_second k
          = throw (AxiosError (Some 429))
       /\ map ok (summaries
                    (fst (summarizeChunksWithRateLimit Json.parse
                            refuses_second 0
                            [mkChunk "Section 1" "a"; mkChunk "Section 2" "b";
                             mkChunk "Section 3" "c"])))
          = map (summary_of Json.parse refuses_second) (seq 0 k)
       /\ List.length
            (history (fst (summarizeChunksWithRateLimit Json.parse
                             refuses_second 0
                             [mkChunk "Section 1" "a"; mkChunk "Section 2" "b";
                              mkChunk "Section 3" "c"])))
          = S k.
Proof.
  assert (H : snd (summarizeChunksWithRateLimit Json.parse refuses_second 0
                     [mkChunk "Section 1" "a"; mkChunk "Section 2" "b";
                      mkChunk "Section 3" "c"])
              = Some (AxiosError (Some 429))) by (vm_compute; reflexivity).
  split; [exact H|].
  exact (first_failure_ends_the_run Json.parse refuses_second 0
           [mkChunk "Section 1" "a"; mkChunk "Section 2" "b";
            mkChunk "Section 3" "c"] (AxiosError (Some 429)) H).
Defined.

(** *** The clock *)

Lemma latency_nonneg (srv : service) (n : nat) :
  forall i, 0 <= latency srv i n.
Proof.
  induction n as [|n IH]; intros i; cbn [latency]; [lia|].
  specialize (IH (S i)). lia.
Qed.

Lemma latency_snoc (srv : service) (n : nat) :
  forall i, latency srv i (S n)
            = latency srv i n + Z.of_N (took srv (i + n)).
Proof.
  induction n as [|n IH]; intros i.
  - cbn [latency]. rewrite Nat.add_0_r. lia.
  - change (latency srv i (S (S n)))
      with (Z.of_N (took srv i) + latency srv (S i) (S n)).
    rewrite (IH (S i)). cbn [latency].
    replace (S i + n)%nat with (i + S n)%nat by lia. lia.
Qed.

Lemma total_estimate_nonneg (chunks : list Chunk) : 0 <= total_estimate chunks.
Proof.
  induction chunks as [|c cs IH]; cbn [total_estimate fold_right]; [lia|].
  fold (total_estimate cs). pose proof (estimateTokens_nonneg (chunkContent c)).
  lia.
Qed.

(** One iteration: the clock moves on by the time of the request and,
    when the counter is reset, by a wait of at most 65 seconds. *)
Lemma process_clock (parse : string -> option json) (srv : service)
    (i : nat) (chunk : Chunk) (st : limiter) :
  startTime st <= now st ->
  let st' := fst (process parse srv i chunk st) in
  let resets := (List.length (closed st') - List.length (closed st))%nat in
  (List.length (closed st) <= List.length (closed st'))%nat
  /\ startTime st' <= now st'
  /\ now st + Z.of_N (took srv i) <= now st'
     <= now st + Z.of_N (took srv i) + 65000 * Z.of_nat resets
  /\ (tokensUsed st + estimateTokens (chunkContent chunk)
      <= MAX_TOKENS_PER_MINUTE ->
      closed st' = closed st /\ startTime st' = startTime st
      /\ (snd (process parse srv i chunk st) = None ->
          tokensUsed st'
          = tokensUsed st + estimateTokens (chunkContent chunk))).
Proof.
  intros Hclock. unfold process.
  set (e := estimateTokens (chunkContent chunk)).
  pose proof (N2Z.is_nonneg (took srv i)) as Htook.
  destruct (MAX_TOKENS_PER_MINUTE <? tokensUsed st + e) eqn:Hover.
  - apply Z.ltb_lt in Hover. unfold throttle.
    set (t := if now st - startTime st <? 65000
              then now st + (65000 - (now st - startTime st)) else now st).
    assert (Ht : now st <= t <= now st + 65000).
    { unfold t. destruct (now st - startTime st <? 65000) eqn:E.
      - apply Z.ltb_lt in E. lia.
      - lia. }
    destruct (summarizeChunk parse (answer srv i));
      cbn [fst snd closed startTime now tokensUsed current summaries List.length];
      (split; [lia|]); (split; [lia|]);
      (split; [replace (S (List.length (closed st)) - List.length (closed st))%nat
                 with 1%nat by lia; lia | lia]).
  - apply Z.ltb_ge in Hover.
    destruct (summarizeChunk parse (answer srv i));
      cbn [fst snd closed startTime now tokensUsed current summaries];
      rewrite Nat.sub_diag; (split; [lia|]); (split; [lia|]);
      (split; [lia|]); intros _; repeat split; intros; try reflexivity;
      discriminate.
Qed.

Lemma loop_clock (parse : string -> option json) (srv : service)
    (chunks : list Chunk) :
  forall i st,
    startTime st <= now st ->
    let st' := fst (loop parse srv i chunks st) in
    let sent := (List.length (history st') - List.length (history st))%nat in
    let resets := (List.length (closed st') - List.length (closed st))%nat in
    (List.length (closed st) <= List.length (closed st'))%nat
    /\ (List.length (history st) <= List.length (history st'))%nat
    /\ now st + latency srv i sent <= now st'
       <= now st + latency srv i sent + 65000 * Z.of_nat resets
    /\ (tokensUsed st + total_estimate chunks <= MAX_TOKENS_PER_MINUTE ->
        closed st' = closed st /\ startTime st' = startTime st).
Proof.
  induction chunks as [|chunk rest IH]; intros i st Hclock; cbv zeta.
  - cbn [loop fst]. rewrite !Nat.sub_diag. cbn [latency].
    repeat split; try lia; reflexivity.
  - cbn [loop].
    pose proof (process_clock parse srv i chunk st Hclock) as Hp.
    pose proof (process_history parse srv i chunk st) as Hh.
    cbv zeta in Hp.
    destruct (process parse srv i chunk st) as [st1 [e|]] eqn:Ep;
      cbn [fst snd] in *; destruct Hp as (Hc1 & Hclock1 & Hnow1 & Hquiet1).
    + rewrite Hh, length_app. cbn [List.length].
      replace (List.length (history st) + 1 - List.length (history st))%nat
        with 1%nat by lia.
      cbn [latency]. split; [lia|]. split; [lia|]. split; [lia|].
      intros Hfit. cbn [total_estimate fold_right] in Hfit.
      fold (total_estimate rest) in Hfit.
      pose proof (total_estimate_nonneg rest).
      destruct Hquiet1 as (H1 & H2 & _); [lia|]. split; assumption.
    + specialize (IH (S i) st1 Hclock1). cbv zeta in IH.
      destruct IH as (Hc2 & Hh2 & Hnow2 & Hquiet2).
      rewrite Hh, length_app in Hh2, Hnow2. cbn [List.length] in Hh2, Hnow2.
      set (st2 := fst (loop parse srv (S i) rest st1)) in *.
      split; [lia|]. split; [lia|]. split.
      * replace (List.length (history st2) - List.length (history st))%nat
          with (S (List.length (history st2)
                   - (List.length (history st) + 1)))%nat by lia.
        cbn [latency].
        replace (List.length (closed st2) - List.length (closed st))%nat
          with ((List.length (closed st2) - List.length (closed st1))
                + (List.length (closed st1) - List.length (closed st)))%nat
          by lia.
        rewrite Nat2Z.inj_add. lia.
      * intros Hfit. cbn [total_estimate fold_right] in Hfit.
        fold (total_estimate rest) in Hfit.
        pose proof (total_estimate_nonneg rest).
        destruct Hquiet1 as (H1 & H2 & H3); [lia|].
        specialize (H3 eq_refl).
        destruct Hquiet2 as (H4 & H5); [lia|].
        split; congruence.
Qed.

(** X14 — when the estimates of all the chunks together are within the
    budget of 30,000, the controller never waits: the counter is never
    reset, and the loop ends when the requests sent have taken their
    time, one after the other. *)
Theorem no_wait_within_budget (parse : string -> option json) (srv : service)
    (t0 : Z) (chunks : list Chunk) :
  total_estimate chunks <= MAX_TOKENS_PER_MINUTE ->
  let st := fst (summarizeChunksWithRateLimit parse srv t0 chunks) in
  closed st = []
  /\ startTime st = t0
  /\ now st = t0 + latency srv 0 (List.length (history st)).
Proof.
  intros Hfit. cbv zeta. unfold summarizeChunksWithRateLimit.
  pose proof (loop_clock parse srv chunks 0%nat (start t0)) as H.
  cbv zeta in H. cbn [start startTime now tokensUsed closed] in H.
  destruct H as (_ & _ & Hnow & Hquiet); [lia|].
  destruct Hquiet as [Hc Hs]; [lia|].
  rewrite Hc in Hnow. cbn [List.length] in Hnow.
  change (history (mkLimiter [] 0 t0 t0 (mkWindow t0 []) [])) with (@nil Z) in Hnow.
  cbn [List.length] in Hnow. rewrite Nat.sub_0_r in Hnow.
  split; [exact Hc|]. split; [exact Hs | lia].
Qed.

Lemma no_wait_within_budget_witness :
  total_estimate [mkChunk "Section 1" "a b"; mkChunk "Section 2" "c d"]
    <= MAX_TOKENS_PER_MINUTE
  /\ now (fst (summarizeChunksWithRateLimit Json.parse slow_then_quick 0
                 [mkChunk "Section 1" "a b"; mkChunk "Section 2" "c d"]))
     = 64500.
Proof.
  assert (H : total_estimate
                [mkChunk "Section 1" "a b"; mkChunk "Section 2" "c d"]
              <= MAX_TOKENS_PER_MINUTE) by (vm_compute; discriminate).
  split; [exact H|].
  destruct (no_wait_within_budget Json.parse slow_then_quick 0
              [mkChunk "Section 1" "a b"; mkChunk "Section 2" "c d"] H)
    as (_ & _ & E).
  rewrite E. vm_compute. reflexivity.
Defined.


(** *** Chunks of the flat size *)

Lemma estimate_within_flat_cap (text : string) :
  JS.len text <= Flat.chunkSize -> estimateTokens text <= MAX_TOKENS_PER_MINUTE.
Proof.
  unfold Flat.chunkSize, MAX_TOKENS_PER_MINUTE. intros Hcap.
  pose proof (wordCount_bounds text) as Hw.
  pose proof (wordCount_half text) as Hh.
  assert (E : estimateTokens text = (133 * wordCount text + 99) / 100)
    by (unfold estimateTokens; apply mul_1_33_ceil; lia).
  pose proof (Z.div_mod (133 * wordCount text + 99) 100 ltac:(lia)) as Hdm.
  pose proof (Z.mod_pos_bound (133 * wordCount text + 99) 100 ltac:(lia)) as Hm.
  rewrite <- E in Hdm. lia.
Qed.

Lemma in_firstn (A : Type) (n : nat) (l : list A) (x : A) :
  In x (firstn n l) -> In x l.
Proof.
  intros H. rewrite <- (firstn_skipn n l). apply in_or_app. left. exact H.
Qed.

Lemma sent_in_history (st : limiter) (w : window) (r : Z * Z) :
  In w (windows st) -> In r (requests w) -> In (snd r) (history st).
Proof.
  intros Hw Hr. unfold history. apply in_map. apply -> in_rev.
  unfold sent_requests. apply in_flat_map. exists w. split; assumption.
Qed.

(** X16 — when every chunk is within the flat cap of 40,000
    characters, every budget window of the controller holds at most
    30,000 estimated tokens, with no exception. *)
Theorem flat_chunks_keep_budget (parse : string -> option json)
    (srv : service) (t0 : Z) (chunks : list Chunk) :
  (forall c, In c chunks -> JS.len (chunkContent c) <= Flat.chunkSize) ->
  Forall (fun w => sum_tokens (requests w) <= MAX_TOKENS_PER_MINUTE)
         (windows (fst (summarizeChunksWithRateLimit parse srv t0 chunks))).
Proof.
  intros Hcap. unfold summarizeChunksWithRateLimit.
  pose proof (loop_record_ok parse srv chunks 0%nat (start t0) (start_inv t0))
    as [Hok _].
  destruct (loop_history parse srv chunks 0%nat (start t0)) as [n Hn].
  change (history (start t0)) with (@nil Z) in Hn. cbn [app] in Hn.
  set (st := fst (loop parse srv 0 chunks (start t0))) in *.
  rewrite Forall_forall in *. intros w Hw.
  destruct (Hok w Hw) as [[Hsum | Hone] _]; [exact Hsum|].
  destruct (requests w) as [|r [|r' rs]] eqn:Er; cbn [List.length] in Hone;
    [unfold MAX_TOKENS_PER_MINUTE; simpl; lia | | lia].
  cbn [sum_tokens fold_right]. rewrite Z.add_0_r.
  assert (Hin : In (snd r) (history st)).
  { apply sent_in_history with (w := w); [exact Hw|]. rewrite Er. left. reflexivity. }
  rewrite Hn in Hin. apply in_firstn in Hin. apply in_map_iff in Hin.
  destruct Hin as (c & Hc & Hinc). rewrite <- Hc.
  apply estimate_within_flat_cap. apply Hcap. exact Hinc.
Qed.

Lemma flat_chunks_keep_budget_witness :
  (forall c, In c [mkChunk "Section 1" "a b"; mkChunk "Section 2" "c d"] ->
             JS.len (chunkContent c) <= Flat.chunkSize)
  /\ Forall (fun w => sum_tokens (requests w) <= MAX_TOKENS_PER_MINUTE)
            (windows (fst (summarizeChunksWithRateLimit Json.parse
                             slow_then_quick 0
                             [mkChunk "Section 1" "a b";
                              mkChunk "Section 2" "c d"]))).
Proof.
  assert (H : forall c,
             In c [mkChunk "Section 1" "a b"; mkChunk "Section 2" "c d"] ->
             JS.len (chunkContent c) <= Flat.chunkSize).
  { intros c [<- | [<- | []]]; vm_compute; discriminate. }
  split; [exact H|].
  exact (flat_chunks_keep_budget Json.parse slow_then_quick 0
           [mkChunk "Section 1" "a b"; mkChunk "Section 2" "c d"] H).
Defined.

(** ** Fences and white space around a response *)

Lemma prefix_empty (s : string) : String.prefix EmptyString s = true.
Proof. destruct s; reflexivity. Qed.

Lemma strip_keeps_plain_char (c : ascii) (r : string) :
  (c =? "`")%char = false ->
  JS.strip_fences_from 0 (String c r) = String c (JS.strip_fences_from 0 r).
Proof.
  intros Hc. rewrite strip_fences_from_0. cbn [String.prefix].
  destruct (ascii_dec "`" c) as [E | _]; [|reflexivity].
  subst c. discriminate.
Qed.

Lemma strip_plain_prefix (a t : string) :
  has_char "`" a = false ->
  JS.strip_fences_from 0 (a ++ t) = a ++ JS.strip_fences_from 0 t.
Proof.
  induction a as [|c a IH]; intros H; [reflexivity|].
  cbn [has_char] in H. apply orb_false_iff in H. destruct H as [Hc Ha].
  cbn [append]. rewrite strip_keeps_plain_char by exact Hc.
  rewrite IH by exact Ha. reflexivity.
Qed.

Lemma append_empty_r (s : string) : s ++ EmptyString = s.
Proof. induction s as [|c s IH]; cbn [append]; [reflexivity | f_equal; exact IH]. Qed.

Lemma space_not_backtick (c : ascii) :
  JS.is_space c = true -> (c =? "`")%char = false.
Proof.
  destruct (c =? "`")%char eqn:E; [|reflexivity].
  apply Ascii.eqb_eq in E. subst c. discriminate.
Qed.

Lemma blank_no_backtick (ws : string) :
  blank ws = true -> has_char "`" ws = false.
Proof.
  induction ws as [|c ws IH]; [reflexivity|].
  cbn [blank has_char]. intros H. apply andb_true_iff in H. destruct H as [Hc Hws].
  rewrite (space_not_backtick c Hc), (IH Hws). reflexivity.
Qed.

Lemma trimStart_blank_app (ws s : string) :
  blank ws = true -> JS.trimStart (ws ++ s) = JS.trimStart s.
Proof.
  induction ws as [|c ws IH]; [reflexivity|].
  cbn [blank]. intros H. apply andb_true_iff in H. destruct H as [Hc Hws].
  cbn [append JS.trimStart]. rewrite Hc. apply IH. exact Hws.
Qed.

Lemma trimEnd_blank (ws : string) :
  blank ws = true -> JS.trimEnd ws = EmptyString.
Proof.
  induction ws as [|c ws IH]; [reflexivity|].
  cbn [blank]. intros H. apply andb_true_iff in H. destruct H as [Hc Hws].
  cbn [JS.trimEnd]. rewrite (IH Hws), Hc. reflexivity.
Qed.

Lemma trimEnd_app_blank (s ws : string) :
  blank ws = true -> JS.trimEnd (s ++ ws) = JS.trimEnd s.
Proof.
  intros Hws. induction s as [|c s IH].
  - cbn [append]. apply trimEnd_blank. exact Hws.
  - cbn [append JS.trimEnd]. rewrite IH. reflexivity.
Qed.

Lemma trimStart_app_blank (s ws : string) :
  blank ws = true ->
  JS.trimStart (s ++ ws) = EmptyString /\ JS.trimStart s = EmptyString
  \/ JS.trimStart (s ++ ws) = JS.trimStart s ++ ws.
Proof.
  intros Hws. induction s as [|c s IH].
  - left. cbn [append]. split; [|reflexivity].
    rewrite <- (append_empty_r ws). rewrite trimStart_blank_app by exact Hws.
    reflexivity.
  - cbn [append JS.trimStart]. destruct (JS.is_space c); [exact IH|].
    right. reflexivity.
Qed.

(** White space around a text does not show after trimming. *)
Lemma trim_around (ws1 s ws2 : string) :
  blank ws1 = true -> blank ws2 = true ->
  JS.trim (ws1 ++ s ++ ws2) = JS.trim s.
Proof.
  intros H1 H2. unfold JS.trim. rewrite trimStart_blank_app by exact H1.
  destruct (trimStart_app_blank s ws2 H2) as [[E1 E2] | E]; rewrite ?E1, ?E2, ?E.
  - reflexivity.
  - apply trimEnd_app_blank. exact H2.
Qed.

(** X17 — a response body without backticks gives the same result bare,
    inside a pair of fences with [json] behind the opening one, and inside a pair
    of plain fences: the fences and the line breaks beside them leave no
    trace. *)
Theorem fenced_response_parses_alike (parse : string -> option json)
    (body : string) :
  has_char "`" body = false ->
  robustJsonParse parse ("```json" ++ newline ++ body ++ newline ++ "```")
    = robustJsonParse parse body
  /\ robustJsonParse parse ("```" ++ newline ++ body ++ newline ++ "```")
    = robustJsonParse parse body
  /\ cleanedText body = JS.trim body.
Proof.
  intros Hb.
  assert (Hbare : JS.strip_fences_from 0 body = body).
  { rewrite <- (append_empty_r body) at 1.
    rewrite strip_plain_prefix by exact Hb. apply append_empty_r. }
  assert (Hin : JS.strip_fences_from 0 (newline ++ body ++ newline ++ "```")
                = newline ++ body ++ newline).
  { change (newline ++ body ++ newline ++ "```")
      with (newline ++ (body ++ newline ++ "```")).
    rewrite (strip_plain_prefix newline) by reflexivity.
    rewrite (strip_plain_prefix body) by exact Hb.
    rewrite (strip_plain_prefix newline) by reflexivity. reflexivity. }
  assert (Htrim : JS.trim (newline ++ body ++ newline) = JS.trim body)
    by (apply trim_around; reflexivity).
  assert (E1 : cleanedText ("```json" ++ newline ++ body ++ newline ++ "```")
               = cleanedText body).
  { unfold cleanedText, JS.strip_fences. rewrite Hbare.
    change (JS.strip_fences_from 0
              ("```json" ++ newline ++ body ++ newline ++ "```"))
      with (JS.strip_fences_from 0 (newline ++ body ++ newline ++ "```")).
    rewrite Hin. exact Htrim. }
  assert (E2 : cleanedText ("```" ++ newline ++ body ++ newline ++ "```")
               = cleanedText body).
  { unfold cleanedText, JS.strip_fences. rewrite Hbare.
    change (JS.strip_fences_from 0
              ("```" ++ newline ++ body ++ newline ++ "```"))
      with (JS.strip_fences_from 0 (newline ++ body ++ newline ++ "```")).
    rewrite Hin. exact Htrim. }
  unfold robustJsonParse. rewrite E1, E2. repeat split.
  unfold cleanedText, JS.strip_fences. rewrite Hbare. reflexivity.
Qed.

Lemma fenced_response_parses_alike_witness :
  has_char "`" "{}" = false
  /\ robustJsonParse Json.parse ("```json" ++ newline ++ "{}" ++ newline ++ "```")
     = robustJsonParse Json.parse "{}".
Proof.
  assert (H : has_char "`" "{}" = false) by reflexivity.
  split; [exact H|].
  exact (proj1 (fenced_response_parses_alike Json.parse "{}" H)).
Defined.

Lemma fence_has_no_space (w : ascii) :
  JS.is_space w = true -> has_char w "```json" = false.
Proof.
  destruct w as [[] [] [] [] [] [] [] []]; vm_compute; congruence.
Qed.

Lemma prefix_app_blank (p : string) :
  (forall w, JS.is_space w = true -> has_char w p = false) ->
  forall x ws, blank ws = true ->
               String.prefix p (x ++ ws) = String.prefix p x.
Proof.
  induction p as [|a p IH]; intros Hp x ws Hws.
  - rewrite !prefix_empty. reflexivity.
  - assert (Hp' : forall w, JS.is_space w = true -> has_char w p = false).
    { intros w Hw. specialize (Hp w Hw). cbn [has_char] in Hp.
      apply orb_false_iff in Hp. apply Hp. }
    destruct x as [|c x].
    + cbn [append]. destruct ws as [|w ws]; [reflexivity|].
      cbn [blank] in Hws. apply andb_true_iff in Hws. destruct Hws as [Hw _].
      specialize (Hp w Hw). cbn [has_char] in Hp.
      apply orb_false_iff in Hp. destruct Hp as [Haw _].
      cbn [String.prefix]. destruct (ascii_dec a w) as [E | _]; [|reflexivity].
      subst w. rewrite Ascii.eqb_refl in Haw. discriminate.
    + cbn [append String.prefix]. destruct (ascii_dec a c); [|reflexivity].
      apply IH; assumption.
Qed.

Lemma strip_app_blank (ws : string) :
  blank ws = true ->
  forall n x, (String.length x <= n)%nat ->
              JS.strip_fences_from 0 (x ++ ws)
              = JS.strip_fences_from 0 x ++ ws.
Proof.
  intros Hws. induction n as [|n IH]; intros x Hn.
  - destruct x; [|simpl in Hn; lia]. cbn [append].
    rewrite <- (append_empty_r ws) at 1.
    rewrite strip_plain_prefix by (apply blank_no_backtick; exact Hws).
    apply append_empty_r.
  - destruct x as [|c r]; [apply (IH EmptyString); simpl; lia|].
    cbn [append]. rewrite !strip_fences_from_0.
    change (String c (r ++ ws)) with (String c r ++ ws).
    rewrite (prefix_app_blank "```json" fence_has_no_space) by exact Hws.
    rewrite (prefix_app_blank "```") by
      (try exact Hws; intros w Hw; pose proof (fence_has_no_space w Hw) as H;
       cbn [has_char] in *; repeat (apply orb_false_iff in H; destruct H as [? H]);
       repeat (apply orb_false_iff; split); assumption).
    destruct (String.prefix "```json" (String c r)) eqn:Hj.
    + destruct (prefix_split _ _ Hj) as [x' E].
      injection E as -> ->.
      change (JS.strip_fences_from 6 (("``json" ++ x') ++ ws))
        with (JS.strip_fences_from 0 (x' ++ ws)).
      change (JS.strip_fences_from 6 ("``json" ++ x'))
        with (JS.strip_fences_from 0 x').
      apply IH. simpl in Hn. lia.
    + destruct (String.prefix "```" (String c r)) eqn:Hf.
      * destruct (prefix_split _ _ Hf) as [x' E].
        injection E as -> ->.
        change (JS.strip_fences_from 2 (("``" ++ x') ++ ws))
          with (JS.strip_fences_from 0 (x' ++ ws)).
        change (JS.strip_fences_from 2 ("``" ++ x'))
          with (JS.strip_fences_from 0 x').
        apply IH. simpl in Hn. lia.
      * cbn [append]. f_equal. apply IH. simpl in Hn. lia.
Qed.

Lemma cleanedText_around (ws1 s ws2 : string) :
  blank ws1 = true -> blank ws2 = true ->
  cleanedText (ws1 ++ s ++ ws2) = cleanedText s.
Proof.
  intros H1 H2. unfold cleanedText, JS.strip_fences.
  rewrite strip_plain_prefix by (apply blank_no_backtick; exact H1).
  rewrite (strip_app_blank ws2 H2 (String.length s) s) by lia.
  apply trim_around; assumption.
Qed.

Lemma trimStart_split (s : string) :
  exists ws, blank ws = true /\ s = ws ++ JS.trimStart s.
Proof.
  induction s as [|c s (ws & Hws & E)].
  - exists EmptyString. split; reflexivity.
  - cbn [JS.trimStart]. destruct (JS.is_space c) eqn:Hc.
    + exists (String c ws). cbn [blank append]. rewrite Hc, Hws.
      split; [reflexivity | f_equal; exact E].
    + exists EmptyString. split; reflexivity.
Qed.

Lemma trimEnd_split (s : string) :
  exists ws, blank ws = true /\ s = JS.trimEnd s ++ ws.
Proof.
  induction s as [|c s (ws & Hws & E)].
  - exists EmptyString. split; reflexivity.
  - cbn [JS.trimEnd]. destruct (JS.trimEnd s) as [|d r].
    + cbn [append] in E. subst s. destruct (JS.is_space c) eqn:Hc.
      * exists (String c ws). cbn [blank append]. rewrite Hc, Hws.
        split; reflexivity.
      * exists ws. split; [exact Hws | reflexivity].
    + exists ws. split; [exact Hws|]. cbn [append]. f_equal. exact E.
Qed.

Lemma trim_split (s : string) :
  exists ws1 ws2,
    blank ws1 = true /\ blank ws2 = true /\ s = ws1 ++ JS.trim s ++ ws2.
Proof.
  destruct (trimStart_split s) as (ws1 & H1 & E1).
  destruct (trimEnd_split (JS.trimStart s)) as (ws2 & H2 & E2).
  exists ws1, ws2. unfold JS.trim. split; [exact H1|]. split; [exact H2|].
  rewrite <- E2. exact E1.
Qed.

Lemma cleanedText_trim (s : string) : cleanedText (JS.trim s) = cleanedText s.
Proof.
  destruct (trim_split s) as (ws1 & ws2 & H1 & H2 & E).
  rewrite E at 2. symmetry. apply cleanedText_around; assumption.
Qed.

(** X18 — white space around a response does not matter: with blanks
    or line breaks put at its ends a response parses, or fails, as it does
    without them; the [trim] that [summarizeChunk] and
    [generateOverarchingSummary] apply before [robustJsonParse] changes
    nothing. *)
Theorem response_whitespace_ignored (parse : string -> option json)
    (ws1 content ws2 : string) :
  blank ws1 = true -> blank ws2 = true ->
  robustJsonParse parse (ws1 ++ content ++ ws2) = robustJsonParse parse content
  /\ summarizeChunk parse (Replied (ws1 ++ content ++ ws2))
     = robustJsonParse parse content
  /\ generateOverarchingSummary parse (Replied (ws1 ++ content ++ ws2))
     = robustJsonParse parse content.
Proof.
  intros H1 H2.
  assert (E : cleanedText (ws1 ++ content ++ ws2) = cleanedText content)
    by (apply cleanedText_around; assumption).
  unfold summarizeChunk, generateOverarchingSummary, robustJsonParse.
  rewrite cleanedText_trim, E. repeat split.
Qed.

Lemma response_whitespace_ignored_witness :
  blank newline = true /\ blank "  " = true
  /\ robustJsonParse Json.parse (newline ++ "{}" ++ "  ")
     = robustJsonParse Json.parse "{}".
Proof.
  assert (H1 : blank newline = true) by reflexivity.
  assert (H2 : blank "  " = true) by reflexivity.
  split; [exact H1|]. split; [exact H2|].
  exact (proj1 (response_whitespace_ignored Json.parse newline "{}" "  " H1 H2)).
Defined.

(** ** Which sentences the grouping loop puts into chunks *)

Section GroupingAccount.

Variable name_of : nat -> string.
Variable cap : Z.

Lemma account_inv_step (processed : list string) (s : string)
    (st : Grouping.state) (blocks : list (list (list string)))
    (pending : list (list string)) :
  account_inv processed st blocks pending ->
  exists blocks' pending',
    account_inv (processed ++ [s]) (Grouping.step name_of cap st s)
                blocks' pending'.
Proof.
  intros [Hsent Hcont Hrun Hlen]. unfold Grouping.step.
  set (group := (Grouping.sentenceGroup st ++ [s])%list).
  assert (Hglen : List.length group = S (List.length (Grouping.sentenceGroup st)))
    by (unfold group; rewrite length_app; simpl; lia).
  destruct ((4 <=? Z.of_nat (List.length group))
            || (cap <? JS.len (Grouping.currentChunk st) + JS.len s)) eqn:Hflush.
  - destruct (cap <? JS.len (Grouping.currentChunk st)
                     + JS.len (JS.join_sp group)).
    + exists (blocks ++ [pending])%list, [group].
      constructor; cbn [Grouping.chunks Grouping.currentChunk
                        Grouping.sentenceGroup].
      * rewrite Hsent, map_app, concat_app. unfold block_sentences, group.
        cbn [map List.concat]. rewrite !app_nil_r, <- !app_assoc. reflexivity.
      * rewrite !map_app, Hcont, Hrun. reflexivity.
      * cbn [joined append]. rewrite append_empty_r. reflexivity.
      * simpl. lia.
    + exists blocks, (pending ++ [group])%list.
      constructor; cbn [Grouping.chunks Grouping.currentChunk
                        Grouping.sentenceGroup].
      * rewrite Hsent. unfold block_sentences, group.
        rewrite concat_app. cbn [List.concat].
        rewrite !app_nil_r, <- !app_assoc. reflexivity.
      * exact Hcont.
      * rewrite joined_snoc, Hrun. reflexivity.
      * simpl. lia.
  - exists blocks, pending.
    apply orb_false_iff in Hflush. destruct Hflush as [H4 _].
    apply Z.leb_gt in H4.
    constructor; cbn [Grouping.chunks Grouping.currentChunk
                      Grouping.sentenceGroup].
    + rewrite Hsent. unfold group. rewrite <- !app_assoc. reflexivity.
    + exact Hcont.
    + exact Hrun.
    + fold group. lia.
Qed.

Lemma account_inv_fold (post : list string) :
  forall processed st blocks pending,
    account_inv processed st blocks pending ->
    exists blocks' pending',
      account_inv (processed ++ post)
                  (fold_left (Grouping.step name_of cap) post st)
                  blocks' pending'.
Proof.
  induction post as [|s post IH]; intros processed st blocks pending Hinv.
  - exists blocks, pending. rewrite app_nil_r. exact Hinv.
  - destruct (account_inv_step processed s st blocks pending Hinv)
      as (b1 & p1 & H1).
    destruct (IH _ _ b1 p1 H1) as (b2 & p2 & H2).
    exists b2, p2. rewrite <- app_assoc in H2. exact H2.
Qed.

Lemma run_account (ss : list string) :
  exists blocks dropped,
    ss = (List.concat (map block_sentences blocks) ++ dropped)%list
    /\ (List.length dropped <= 3)%nat
    /\ map chunkContent (Grouping.run name_of cap ss)
       = map (fun b => JS.trim (joined b)) blocks.
Proof.
  assert (H0 : account_inv [] Grouping.init [] [])
    by (constructor; simpl; try reflexivity; lia).
  destruct (account_inv_fold ss [] Grouping.init [] [] H0)
    as (blocks & pending & [Hsent Hcont Hrun Hlen]).
  cbn [app] in Hsent. unfold Grouping.run, Grouping.finish.
  set (st := fold_left (Grouping.step name_of cap) ss Grouping.init) in *.
  destruct (0 <? JS.len (Grouping.currentChunk st)) eqn:Hpos.
  - exists (blocks ++ [pending])%list, (Grouping.sentenceGroup st).
    split; [|split].
    + rewrite Hsent at 1. rewrite map_app, concat_app. cbn [map List.concat].
      rewrite app_nil_r, <- app_assoc. reflexivity.
    + exact Hlen.
    + rewrite !map_app, Hcont, Hrun. reflexivity.
  - exists blocks, (Grouping.sentenceGroup st).
    assert (Hp : pending = []).
    { destruct pending as [|g gs]; [reflexivity|].
      pose proof (joined_len (g :: gs) ltac:(discriminate)) as Hj.
      rewrite <- Hrun in Hj. apply Z.ltb_ge in Hpos. lia. }
    subst pending. split; [|split].
    + exact Hsent.
    + exact Hlen.
    + exact Hcont.
Qed.

End GroupingAccount.

(** X19 — the chunks of the flat variant hold the sentences of the
    text in their order, and all of them but at most the last three: each
    chunk is a run of sentence groups, every group joined by blanks and
    closed by a blank, trimmed as a whole; the chunks taken one after the
    other use up the sentences from the first on, and what is left over
    is fewer than four sentences. *)
Theorem flat_chunks_account_for_sentences (text : string) :
  exists blocks dropped,
    JS.sentences_of text
    = (List.concat (map block_sentences blocks) ++ dropped)%list
    /\ (List.length dropped <= 3)%nat
    /\ map chunkContent (Flat.smartChunkText text)
       = map (fun b => JS.trim (joined b)) blocks.
Proof.
  exact (run_account Flat.section_name Flat.chunkSize (JS.sentences_of text)).
Qed.

(** X20 — the fallback keeps the same account of the text it splits:
    its chunks use up the sentences in order, and fewer than four
    sentences at the end are in no chunk. *)
Theorem fallback_accounts_for_sentences (text baseName : string) (cap : Z) :
  exists blocks dropped,
    JS.sentences_of text
    = (List.concat (map block_sentences blocks) ++ dropped)%list
    /\ (List.length dropped <= 3)%nat
    /\ map chunkContent (Structural.fallbackChunking text baseName cap)
       = map (fun b => JS.trim (joined b)) blocks.
Proof.
  exact (run_account (fun n => baseName ++ "." ++ JS.show n) cap
           (JS.sentences_of text)).
Qed.

(** * The response parser and the fallback once more *)

(** ** Responses that are not JSON *)

(** C9 (as amended) — a response whose cleaned text (fence markers
    stripped, then white space trimmed from both ends) is not valid JSON
    makes [robustJsonParse] throw its ["AI response was not valid JSON"]
    error, with or without white space around the response;
    [summarizeChunk] and [generateOverarchingSummary], which trim the
    response first, throw the same error, and the controller's loop ends
    with it and without a summary.  No value is returned; and whenever a
    value is returned, it is what [JSON.parse] makes of the cleaned
    text. *)
Theorem unparsable_cleaned_text_throws (parse : string -> option json)
    (content : string) :
  parse (cleanedText content) = None ->
  robustJsonParse parse content
    = throw (Error "AI response was not valid JSON")
  /\ (forall ws1 ws2,
        blank ws1 = true -> blank ws2 = true ->
        robustJsonParse parse (ws1 ++ content ++ ws2)
        = throw (Error "AI response was not valid JSON"))
  /\ summarizeChunk parse (Replied content)
     = throw (Error "AI response was not valid JSON")
  /\ generateOverarchingSummary parse (Replied content)
     = throw (Error "AI response was not valid JSON")
  /\ (forall v,
        robustJsonParse parse content <> ok v
        /\ summarizeChunk parse (Replied content) <> ok v
        /\ generateOverarchingSummary parse (Replied content) <> ok v)
  /\ (forall srv t0 chunk rest,
        answer srv 0%nat = Replied content ->
        snd (summarizeChunksWithRateLimit parse srv t0 (chunk :: rest))
        = Some (Error "AI response was not valid JSON")
        /\ summaries (fst (summarizeChunksWithRateLimit parse srv t0
                             (chunk :: rest))) = [])
  /\ (forall other v,
        (robustJsonParse parse other = ok v ->
         parse (cleanedText other) = Some v)
        /\ (summarizeChunk parse (Replied other) = ok v ->
            parse (cleanedText other) = Some v)).
Proof.
  intros Hbad.
  assert (E : robustJsonParse parse content
              = throw (Error "AI response was not valid JSON")).
  { unfold robustJsonParse. rewrite Hbad. reflexivity. }
  assert (S : summarizeChunk parse (Replied content)
              = throw (Error "AI response was not valid JSON")).
  { cbn [summarizeChunk]. unfold robustJsonParse.
    rewrite cleanedText_trim, Hbad. reflexivity. }
  split; [exact E|]. split.
  { intros ws1 ws2 H1 H2. unfold robustJsonParse.
    rewrite cleanedText_around by assumption. rewrite Hbad. reflexivity. }
  split; [exact S|]. split; [exact S|]. split.
  { intros v. repeat split.
    - rewrite E. discriminate.
    - rewrite S. discriminate.
    - change (generateOverarchingSummary parse (Replied content))
        with (summarizeChunk parse (Replied content)).
      rewrite S. discriminate. }
  split.
  { intros srv t0 chunk rest Hans.
    unfold summarizeChunksWithRateLimit. cbn [loop]. unfold process.
    rewrite Hans, S.
    destruct (MAX_TOKENS_PER_MINUTE
              <? tokensUsed (start t0) + estimateTokens (chunkContent chunk));
      split; reflexivity. }
  intros other v. split.
  - unfold robustJsonParse.
    destruct (parse (cleanedText other)) as [w|]; [|discriminate].
    intros H. injection H as ->. reflexivity.
  - cbn [summarizeChunk]. unfold robustJsonParse. rewrite cleanedText_trim.
    destruct (parse (cleanedText other)) as [w|]; [|discriminate].
    intros H. injection H as ->. reflexivity.
Qed.

Lemma unparsable_cleaned_text_throws_witness :
  Json.parse (cleanedText "The chapter follows the narrator out to sea.")
    = None
  /\ robustJsonParse Json.parse "The chapter follows the narrator out to sea."
     = throw (Error "AI response was not valid JSON").
Proof.
  assert (H : Json.parse
                (cleanedText "The chapter follows the narrator out to sea.")
              = None)
    by (vm_compute; reflexivity).
  split; [exact H|].
  exact (proj1 (unparsable_cleaned_text_throws Json.parse
                  "The chapter follows the narrator out to sea." H)).
Defined.

(** C9 (as stated) fails: a response can be invalid JSON once its fence
    markers are stripped and still be parsed, because the white space
    that [trim] takes from the ends is more than [JSON.parse] allows
    there.  An empty object behind a vertical tab, or fenced between a
    no-break space and a form feed, is no JSON text when stripped, and
    [robustJsonParse] and [summarizeChunk] return the empty object for
    it. *)
Lemma unparsable_stripped_text_accepted :
  Json.parse (JS.strip_fences tab_then_object) = None
  /\ robustJsonParse Json.parse tab_then_object = ok (JObject [])
  /\ summarizeChunk Json.parse (Replied tab_then_object) = ok (JObject [])
  /\ Json.parse (JS.strip_fences fenced_between_odd_blanks) = None
  /\ robustJsonParse Json.parse fenced_between_odd_blanks = ok (JObject [])
  /\ summarizeChunk Json.parse (Replied fenced_between_odd_blanks)
     = ok (JObject []).
Proof. vm_compute. repeat split; reflexivity. Qed.

(** ** Fences inside a response *)















(** ** The fallback on its own output *)

Lemma sentences_of_nonempty (text : string) : JS.sentences_of text <> [].
Proof.
  unfold JS.sentences_of.
  destruct (JS.match_sentences text); discriminate.
Qed.

(** C7 (as amended) — when the sentences of a text make up complete
    groups of four and the text with one more blank per sentence still
    fits the cap, the fallback does not split it: it returns exactly one
    chunk, named as its input with [.1] added, whose content is the
    sentences of the text in their order, each followed by one more
    blank, trimmed.  The chunk is not the input chunk: the name is
    another. *)
Theorem fallback_again_returns_one_chunk (text baseName : string) (cap : Z) :
  JS.len text + Z.of_nat (List.length (JS.sentences_of text)) <= cap ->
  List.concat (groups_of_four (JS.sentences_of text)) = JS.sentences_of text ->
  Structural.fallbackChunking text baseName cap
  = [mkChunk (baseName ++ ".1")
             (JS.trim (joined (groups_of_four (JS.sentences_of text))))]
  /\ Structural.fallbackChunking text baseName cap <> [mkChunk baseName text].
Proof.
  intros Hfit Hfull.
  assert (Hw : weight (JS.sentences_of text) <= cap)
    by (pose proof (sentences_of_weight text); lia).
  pose proof (run_fitting (fun n => baseName ++ "." ++ JS.show n) cap
                (JS.sentences_of text) Hw) as Hrun.
  fold (Structural.fallbackChunking text baseName cap) in Hrun.
  assert (Hgs : groups_of_four (JS.sentences_of text) <> []).
  { intros E. rewrite E in Hfull. symmetry in Hfull.
    exact (sentences_of_nonempty text Hfull). }
  destruct (groups_of_four (JS.sentences_of text)) as [|g gs] eqn:Eg;
    [congruence|].
  rewrite Hrun. split; [reflexivity|].
  assert (Hname : baseName ++ ".1" <> baseName).
  { intros E. apply (f_equal JS.len) in E. rewrite len_append in E.
    change (JS.len ".1") with 2 in E. lia. }
  intros E. injection E as Hn _. apply Hname. exact Hn.
Qed.

Lemma fallback_again_returns_one_chunk_witness :
  JS.len "A.  B.  C.  D."
    + Z.of_nat (List.length (JS.sentences_of "A.  B.  C.  D.")) <= 100
  /\ List.concat (groups_of_four (JS.sentences_of "A.  B.  C.  D."))
     = JS.sentences_of "A.  B.  C.  D."
  /\ Structural.fallbackChunking "A.  B.  C.  D." "x.1" 100
     = [mkChunk "x.1.1" "A.   B.   C.   D."].
Proof.
  assert (H : JS.len "A.  B.  C.  D."
              + Z.of_nat (List.length (JS.sentences_of "A.  B.  C.  D."))
              <= 100) by (vm_compute; discriminate).
  assert (F : List.concat (groups_of_four (JS.sentences_of "A.  B.  C.  D."))
              = JS.sentences_of "A.  B.  C.  D.") by reflexivity.
  split; [exact H|]. split; [exact F|].
  rewrite (proj1 (fallback_again_returns_one_chunk
                    "A.  B.  C.  D." "x.1" 100 H F)).
  reflexivity.
Defined.
